(** * libstd stdio: ring buffer, format-string interpreter, print driver

    Shallow embedding of [src/stream/stdio.c].

    The C file keeps one global [struct s_ring ring_buffer]; every function
    below takes the ring as an explicit argument and returns the updated
    ring (state passing).  Characters are [ascii], indices and C integers
    are [Z] with the wrap-around of their C type written out where the
    source computes in that type. *)

From Stdlib Require Import ZArith Lia Ascii String.
From stdpp Require Import base option list gmap.

Local Open Scope Z_scope.

(** ** C integer types *)

Definition u8 (z : Z) : Z := z mod 256.
Definition u16 (z : Z) : Z := z mod 65536.
Definition u32 (z : Z) : Z := z mod 4294967296.
Definition u64 (z : Z) : Z := z mod 18446744073709551616.
(** [(int)z]: the 32-bit two's complement reading of [z]. *)
Definition s32 (z : Z) : Z := (z + 2147483648) mod 4294967296 - 2147483648.
(** [(short)z]. *)
Definition s16 (z : Z) : Z := (z + 32768) mod 65536 - 32768.

Definition NUL : ascii := Ascii.zero.
Definition code (c : ascii) : Z := Z.of_N (N_of_ascii c).
Definition chr (z : Z) : ascii := ascii_of_N (Z.to_N (u8 z)).

(** ** The ring buffer *)

(** Modelled from the spec: [struct s_ring], whose header
    [stream/stream_priv.h] is missing here, is a fixed-length byte array
    with [start] and [end] indices into it and a [full] boolean; these are
    the four fields [stdio.c] uses.  The constants [BUF_MAX] and [BUF_SIZE]
    of the same header are parameters of the development. *)
Record s_ring : Type := mk_ring {
  start : Z;
  end_ : Z;
  full : bool;
  buf : list ascii
}.

(** [for (i = lo; i < hi; i++) buf[i] = '\0';] with an index that cannot
    wrap ([uint32_t i] against the constant [BUF_MAX]). *)
Definition clear_range (lo hi : Z) (b : list ascii) : list ascii :=
  fold_left (fun acc k => <[k := NUL]> acc)
            (seq (Z.to_nat lo) (Z.to_nat (hi - lo))) b.

(** [for (uint16_t i = lo; i < hi; i++) buf[i] = '\0';].  The index lives
    in 16 bits: when [hi] is above 65535 the C loop never ends, which the
    model reports as [None] once the fuel is spent. *)
Fixpoint clear_loop16 (fuel : nat) (i hi : Z) (b : list ascii)
  : option (list ascii) :=
  if i <? hi then
    match fuel with
    | O => None
    | S f => clear_loop16 f (u16 (i + 1)) hi (<[Z.to_nat i := NUL]> b)
    end
  else Some b.

(** A 16-bit counter visits at most 65536 values before it repeats. *)
Definition fuel16 : nat := Z.to_nat 65536.

Section RingBuffer.

Variable BUF_MAX : Z.
Variable BUF_SIZE : Z.

(** [init_ring_buffer] *)
Definition init_ring_buffer (rb : s_ring) : s_ring :=
  {| start := 0; end_ := 0; full := false;
     buf := clear_range 0 BUF_MAX (buf rb) |}.

(** [ring_buffer_write_char].  The store [buf[end] = c] lands inside the
    array whenever [end_] is below its length, which [rb_wf] below
    guarantees; outside it the C store is undefined and the list update
    of the model does nothing. *)
Definition ring_buffer_write_char (c : ascii) (rb : s_ring) : s_ring :=
  if full rb then rb
  else
    let b := <[Z.to_nat (end_ rb) := c]> (buf rb) in
    if negb ((end_ rb + 1) mod BUF_MAX =? start rb) then
      {| start := start rb; end_ := (end_ rb + 1) mod BUF_MAX;
         full := false; buf := b |}
    else
      {| start := start rb; end_ := end_ rb; full := true; buf := b |}.

(** [print_and_reset_buffer]: the calls made to [sys_log] are returned as
    pairs (length, index of the first byte in [buf]). *)
Definition print_and_reset_buffer (rb : s_ring) : list (Z * Z) * s_ring :=
  let calls :=
    if end_ rb >? start rb then
      [(end_ rb - start rb, start rb)]
    else if end_ rb <? start rb then
      [(BUF_SIZE - start rb, start rb); (end_ rb, 0)]
    else [] in
  (calls,
   {| start := 0; end_ := 0; full := false;
      buf := clear_range 0 BUF_MAX (buf rb) |}).

(** [ring_buffer_rewind] *)
Definition ring_buffer_rewind (len : Z) (rb : s_ring) : option (Z * s_ring) :=
  if len >=? BUF_MAX then Some (0, rb)
  else if end_ rb >=? len then
    b ← clear_loop16 fuel16 (u16 (end_ rb - len)) (end_ rb) (buf rb);
    Some (len, {| start := start rb; end_ := end_ rb - len;
                  full := full rb; buf := b |})
  else
    let first := end_ rb in
    b1 ← clear_loop16 fuel16 0 (end_ rb) (buf rb);
    b2 ← clear_loop16 fuel16 (u16 (BUF_MAX - len + first)) BUF_MAX b1;
    Some (len, {| start := start rb; end_ := BUF_MAX - len + first;
                  full := full rb; buf := b2 |}).

(** A sequence of writes, one [ring_buffer_write_char] per character. *)
Definition ring_buffer_write_chars (l : list ascii) (rb : s_ring) : s_ring :=
  fold_left (fun r c => ring_buffer_write_char c r) l rb.

(** *** State predicates *)

(** Cursors inside the storage, storage of [BUF_MAX] slots. *)
Definition rb_wf (rb : s_ring) : Prop :=
  0 <= start rb < BUF_MAX /\ 0 <= end_ rb < BUF_MAX /\
  Z.of_nat (length (buf rb)) = BUF_MAX.

(** Number of live bytes while [full] is false. *)
Definition rb_live (rb : s_ring) : Z := (end_ rb - start rb) mod BUF_MAX.

(** The live bytes, oldest first, while [full] is false. *)
Definition rb_contents (rb : s_ring) : list ascii :=
  map (fun k => nth (Z.to_nat ((start rb + Z.of_nat k) mod BUF_MAX)) (buf rb) NUL)
      (seq 0 (Z.to_nat (rb_live rb))).

(** The invariant as the specification words it. *)
Definition rb_inv_spec (rb : s_ring) : Prop :=
  0 <= start rb < BUF_MAX /\ 0 <= end_ rb < BUF_MAX /\
  (full rb = true -> start rb = end_ rb).

(** The invariant the writer maintains: a saturated ring has [end_] one
    slot behind [start]. *)
Definition rb_inv (rb : s_ring) : Prop :=
  rb_wf rb /\ (full rb = true -> (end_ rb + 1) mod BUF_MAX = start rb).

(** *** Digits and numbers *)

(** [ring_buffer_write_digit] *)
Definition ring_buffer_write_digit (digit : Z) (rb : s_ring) : s_ring :=
  if digit <? 10 then ring_buffer_write_char (chr (digit + code "0")) rb
  else if digit <=? 15 then
    ring_buffer_write_char (chr (digit + (code "a" - 10))) rb
  else rb.

(** [ring_buffer_write_string]: [str] is [None] for a null pointer,
    otherwise the characters found at the pointer, the terminating NUL
    being the end of the list. *)
Fixpoint write_string_loop (str : list ascii) (n : nat) (rb : s_ring) : s_ring :=
  match n, str with
  | S n', c :: str' =>
      if Ascii.eqb c NUL then rb
      else write_string_loop str' n' (ring_buffer_write_char c rb)
  | _, _ => rb
  end.

Definition ring_buffer_write_string (str : option (list ascii)) (len : Z)
    (rb : s_ring) : s_ring :=
  match str with
  | None => rb
  | Some s => write_string_loop s (Z.to_nat len) rb
  end.

(** First loop of [ring_buffer_write_number] and the store that follows
    it.  [number[index++] = d] pushes [d] on [acc], so the head of the
    result is the cell the output loop reads first.  After 63 rounds of
    the loop the last store still falls in the 64 cells of [number]; one
    more round stores out of bounds, [None]. *)
Fixpoint number_cells (fuel : nat) (value base : Z) (acc : list Z)
  : option (list Z) :=
  if negb (value / base =? 0) then
    match fuel with
    | O => None
    | S f => number_cells f (value / base) base (value mod base :: acc)
    end
  else Some (value mod base :: acc).

(** [ring_buffer_write_number] *)
Definition ring_buffer_write_number (value base : Z) (rb : s_ring)
  : option s_ring :=
  number ← number_cells 63 value base [];
  Some (fold_left (fun r d => ring_buffer_write_digit d r) number rb).

End RingBuffer.

(** [get_number_len]: the loop of a call with [base >= 2] ends within 63
    rounds on a 64-bit value; [None] is a loop that does not end. *)
Fixpoint get_number_len_loop (fuel : nat) (value base len : Z) : option Z :=
  if negb (value / base =? 0) then
    match fuel with
    | O => None
    | S f => get_number_len_loop f (value / base) base (u8 (len + 1))
    end
  else Some len.

Definition get_number_len (value base : Z) : option Z :=
  get_number_len_loop 64 value base 1.

(** ** The format-string interpreter *)

Inductive fs_num_mode_t : Type :=
| FS_NUM_DECIMAL | FS_NUM_HEX | FS_NUM_UCHAR | FS_NUM_SHORT
| FS_NUM_LONG | FS_NUM_LONGLONG | FS_NUM_UNSIGNED.

Record fs_properties_t : Type := mk_fs {
  attr_0len : bool;
  attr_size : bool;
  size : Z;
  numeric_mode : fs_num_mode_t;
  started : bool;
  consumed : Z
}.

Definition fs_init : fs_properties_t :=
  {| attr_0len := false; attr_size := false; size := 0;
     numeric_mode := FS_NUM_DECIMAL; started := false; consumed := 0 |}.

Definition set_started (fs : fs_properties_t) : fs_properties_t :=
  mk_fs (attr_0len fs) (attr_size fs) (size fs) (numeric_mode fs) true (consumed fs).
Definition set_attr_0len (fs : fs_properties_t) : fs_properties_t :=
  mk_fs true (attr_size fs) (size fs) (numeric_mode fs) (started fs) (consumed fs).
Definition set_attr_size (fs : fs_properties_t) : fs_properties_t :=
  mk_fs (attr_0len fs) true (size fs) (numeric_mode fs) (started fs) (consumed fs).
Definition set_size (z : Z) (fs : fs_properties_t) : fs_properties_t :=
  mk_fs (attr_0len fs) (attr_size fs) z (numeric_mode fs) (started fs) (consumed fs).
Definition set_numeric_mode (m : fs_num_mode_t) (fs : fs_properties_t) : fs_properties_t :=
  mk_fs (attr_0len fs) (attr_size fs) (size fs) m (started fs) (consumed fs).
(** [fs_prop.consumed++] on a [uint8_t]. *)
Definition incr_consumed (fs : fs_properties_t) : fs_properties_t :=
  mk_fs (attr_0len fs) (attr_size fs) (size fs) (numeric_mode fs) (started fs)
        (u8 (consumed fs + 1)).

(** The variadic arguments, as the caller pushed them on an ILP32 target
    (ARMv7-M): [int], [long], [uint32_t], [physaddr_t] and promoted
    [short]/[char] take one 32-bit slot, [long long] a 64-bit one, and a
    [char*] is shown with the characters it points to ([None]: null). *)
Inductive va_item : Type :=
| Arg32 (w : Z)
| Arg64 (w : Z)
| ArgStr (s : option (list ascii)).

Definition va_list : Type := list va_item.

(** [va_arg] at type [T]; reading a slot of another kind, or past the last
    argument, is undefined: [None]. *)
Definition va_arg_int (args : va_list) : option (Z * va_list) :=
  match args with Arg32 w :: rest => Some (s32 w, rest) | _ => None end.
Definition va_arg_uint32 (args : va_list) : option (Z * va_list) :=
  match args with Arg32 w :: rest => Some (u32 w, rest) | _ => None end.
Definition va_arg_longlong (args : va_list) : option (Z * va_list) :=
  match args with
  | Arg64 w :: rest =>
      Some ((w + 9223372036854775808) mod 18446744073709551616
            - 9223372036854775808, rest)
  | _ => None
  end.
Definition va_arg_str (args : va_list) : option (option (list ascii) * va_list) :=
  match args with ArgStr s :: rest => Some (s, rest) | _ => None end.

(** Modelled from the spec: [strlen], whose file [string.c] is missing
    here, is a raw string primitive giving the length up to the first
    NUL. *)
Fixpoint strlen (s : list ascii) : Z :=
  match s with
  | [] => 0
  | c :: s' => if Ascii.eqb c NUL then 0 else 1 + strlen s'
  end.

(** [fmt[i]] for a template held in an array of [length fmt + 1]
    characters, the last one NUL; an index outside the array is an
    out-of-bounds read, [None]. *)
Definition fmt_at (fmt : list ascii) (i : Z) : option ascii :=
  if i <? 0 then None
  else if i <? Z.of_nat (length fmt) then Some (nth (Z.to_nat i) fmt NUL)
  else if i =? Z.of_nat (length fmt) then Some NUL
  else None.

Definition is_digit (c : ascii) : bool :=
  (code "0" <=? code c) && (code c <=? code "9").

(** The [while] loop of [case '0']: the decimal width after the flag.
    [fmt] is the whole template and [base] the index of the directive's
    ['%'] in it, so that the C expression [fmt[k]] is [fmt_at fmt (base + k)]. *)
Fixpoint parse_size (fuel : nat) (fmt : list ascii) (base : Z)
    (fs : fs_properties_t) : option fs_properties_t :=
  c ← fmt_at fmt (base + (consumed fs + 1));
  if is_digit c then
    match fuel with
    | O => None
    | S f =>
        parse_size f fmt base
          (incr_consumed
             (set_size (u8 (size fs * 10 + (code c - code "0"))) fs))
    end
  else Some fs.

(** How one round of the [do ... while] ends: [break] out of the switch,
    [goto end], or [goto err]. *)
Inductive fs_outcome : Type :=
| FsBreak (fs : fs_properties_t) (args : va_list) (rb : s_ring)
| FsEnd (fs : fs_properties_t) (args : va_list) (rb : s_ring)
| FsErr (args : va_list) (rb : s_ring).

(** Modelled from the spec: the mutual-exclusion primitive, whose file
    [semaphore.c] is missing here, is a binary token ([true] when held)
    with a try-acquire that fails at once on a held lock. *)
Definition mutex_trylock (lock : bool) : bool * bool :=
  if lock then (false, lock) else (true, true).
Definition mutex_unlock (lock : bool) : bool := false.

Section Interpreter.

Variable BUF_MAX : Z.

Local Abbreviation write_char := (ring_buffer_write_char BUF_MAX).

(** [for (uint32_t i = len; i < fs_prop.size; ++i) ring_buffer_write_char('0');] *)
Definition pad_zero (len sz : Z) (rb : s_ring) : s_ring :=
  Nat.iter (Z.to_nat (sz - len)) (write_char "0"%char) rb.

(** The tail shared by the numeric cases: digit count, padding when
    [pad] holds, then the number itself. *)
Definition emit_number (pad : bool) (fs : fs_properties_t) (value base : Z)
    (rb : s_ring) : option s_ring :=
  len ← get_number_len value base;
  ring_buffer_write_number BUF_MAX value base
    (if pad then pad_zero len (size fs) rb else rb).

(** The [switch (fmt[fs_prop.consumed])] of [print_handle_format_string]. *)
Definition fs_switch (fuel : nat) (fmt : list ascii) (base : Z)
    (fs : fs_properties_t) (args : va_list) (rb : s_ring)
  : option fs_outcome :=
  c ← fmt_at fmt (base + consumed fs);
  if Ascii.eqb c "%" then
    if negb (started fs) then Some (FsBreak (set_started fs) args rb)
    else if consumed fs =? 1 then Some (FsEnd fs args (write_char "%"%char rb))
    else Some (FsErr args rb)
  else if Ascii.eqb c "0" then
    if negb (started fs) then Some (FsErr args rb)
    else
      fs' ← parse_size fuel fmt base (set_attr_0len fs);
      Some (FsBreak (if negb (size fs' =? 0) then set_attr_size fs' else fs')
                    args rb)
  else if Ascii.eqb c "d" || Ascii.eqb c "i" then
    if negb (started fs) then Some (FsErr args rb)
    else
      let fs := set_numeric_mode FS_NUM_DECIMAL fs in
      '(val, args') ← va_arg_int args;
      rb' ← emit_number (attr_size fs && attr_0len fs) fs (u64 val) 10 rb;
      Some (FsEnd fs args' rb')
  else if Ascii.eqb c "l" then
    if negb (started fs) then Some (FsErr args rb)
    else
      nxt ← fmt_at fmt (base + (consumed fs + 1));
      if Ascii.eqb nxt "l" then
        let fs := incr_consumed (set_numeric_mode FS_NUM_LONGLONG fs) in
        '(llval, args') ← va_arg_longlong args;
        rb' ← emit_number (attr_size fs && attr_0len fs) fs (u64 llval) 10 rb;
        Some (FsEnd fs args' rb')
      else
        let fs := set_numeric_mode FS_NUM_LONG fs in
        '(lval, args') ← va_arg_int args;
        rb' ← emit_number (attr_size fs && attr_0len fs) fs (u64 lval) 10 rb;
        Some (FsEnd fs args' rb')
  else if Ascii.eqb c "h" then
    if negb (started fs) then Some (FsErr args rb)
    else
      nxt ← fmt_at fmt (base + (consumed fs + 1));
      if Ascii.eqb nxt "h" then
        let fs := incr_consumed (set_numeric_mode FS_NUM_UCHAR fs) in
        '(v, args') ← va_arg_int args;
        rb' ← emit_number (attr_size fs && attr_0len fs) fs (u64 (u8 v)) 10 rb;
        Some (FsEnd fs args' rb')
      else
        let fs := set_numeric_mode FS_NUM_SHORT fs in
        '(v, args') ← va_arg_int args;
        rb' ← emit_number (attr_size fs && attr_0len fs) fs (u64 (s16 v)) 10 rb;
        Some (FsEnd fs args' rb')
  else if Ascii.eqb c "u" then
    if negb (started fs) then Some (FsErr args rb)
    else
      let fs := set_numeric_mode FS_NUM_UNSIGNED fs in
      '(val, args') ← va_arg_uint32 args;
      rb' ← emit_number (attr_size fs && attr_0len fs) fs val 10 rb;
      Some (FsEnd fs args' rb')
  else if Ascii.eqb c "p" then
    if negb (started fs) then Some (FsErr args rb)
    else
      '(val, args') ← va_arg_uint32 args;
      len ← get_number_len val 16;
      let rb := ring_buffer_write_string BUF_MAX
                  (Some (list_ascii_of_string "0x")) 2 rb in
      let rb := pad_zero len (size fs) rb in
      rb' ← ring_buffer_write_number BUF_MAX val 16 rb;
      Some (FsEnd fs args' rb')
  else if Ascii.eqb c "x" then
    if negb (started fs) then Some (FsErr args rb)
    else
      let fs := set_numeric_mode FS_NUM_UNSIGNED fs in
      '(val, args') ← va_arg_uint32 args;
      rb' ← emit_number (attr_size fs && attr_0len fs) fs val 16 rb;
      Some (FsEnd fs args' rb')
  else if Ascii.eqb c "o" then
    if negb (started fs) then Some (FsErr args rb)
    else
      let fs := set_numeric_mode FS_NUM_UNSIGNED fs in
      '(val, args') ← va_arg_uint32 args;
      rb' ← emit_number (attr_size fs && attr_0len fs) fs val 8 rb;
      Some (FsEnd fs args' rb')
  else if Ascii.eqb c "s" then
    if negb (started fs) then Some (FsErr args rb)
    else if attr_size fs && attr_0len fs then Some (FsErr args rb)
    else
      '(str, args') ← va_arg_str args;
      s ← str;
      Some (FsEnd fs args'
              (ring_buffer_write_string BUF_MAX (Some s) (u32 (strlen s)) rb))
  else if Ascii.eqb c "c" then
    if negb (started fs) then Some (FsErr args rb)
    else if attr_size fs && attr_0len fs then Some (FsErr args rb)
    else
      '(v, args') ← va_arg_int args;
      Some (FsEnd fs args' (write_char (chr v) rb))
  else Some (FsErr args rb).

(** The [do { switch ...; fs_prop.consumed++; } while (fmt[fs_prop.consumed])]
    loop with its two exits.  The result is the returned status, the
    value stored in [*consumed], the advanced argument list and the ring. *)
Fixpoint fs_loop (fuel : nat) (fmt : list ascii) (base : Z)
    (fs : fs_properties_t) (args : va_list) (rb : s_ring)
  : option (Z * Z * va_list * s_ring) :=
  match fuel with
  | O => None
  | S f =>
      o ← fs_switch fuel fmt base fs args rb;
      match o with
      | FsBreak fs' args' rb' =>
          let fs'' := incr_consumed fs' in
          c ← fmt_at fmt (base + consumed fs'');
          if Ascii.eqb c NUL then Some (0, u8 (consumed fs'' + 1), args', rb')
          else fs_loop f fmt base fs'' args' rb'
      | FsEnd fs' args' rb' => Some (0, u8 (consumed fs' + 1), args', rb')
      | FsErr args' rb' => Some (1, 0, args', rb')
      end
  end.

(** [print_handle_format_string(&fmt[base], &args, &consumed)]; the three
    pointers are never null at the only call site. *)
Definition print_handle_format_string (fuel : nat) (fmt : list ascii)
    (base : Z) (args : va_list) (rb : s_ring)
  : option (Z * Z * va_list * s_ring) :=
  fs_loop fuel fmt base fs_init args rb.

(** The [while (fmt[i])] loop of [print]. *)
Fixpoint print_loop (fuel : nat) (fmt : list ascii) (i : Z)
    (args : va_list) (rb : s_ring) : option (Z * s_ring) :=
  match fuel with
  | O => None
  | S f =>
      c ← fmt_at fmt i;
      if Ascii.eqb c NUL then Some (i, rb)
      else if Ascii.eqb c "%" then
        '(status, consumed, args', rb') ←
           print_handle_format_string fuel fmt i args rb;
        if negb (status =? 0) then Some (-1, rb')
        else print_loop f fmt (i + consumed) args' rb'
      else print_loop f fmt (i + 1) args (write_char c rb)
  end.

(** [print] *)
Definition print (fuel : nat) (fmt : list ascii) (args : va_list)
    (rb : s_ring) : option (Z * s_ring) :=
  print_loop fuel fmt 0 args rb.

(** *** Public entry point: [snprintf] *)

(** What [snprintf] does to the destination: [memcpy(dst, &buf[copy_src],
    copy_len)] writes the [copy_len] bytes [dst[0 .. copy_len)], then
    [dst[nul_at] = 0]. *)
Record dst_writes : Type := mk_dst {
  copy_src : Z;
  copy_len : Z;
  nul_at : Z
}.

(** [snprintf(dst, len, fmt, ...)] on an ILP32 target ([size_t] of 32
    bits).  [dst] tells whether the destination pointer is non-null and
    [lock] is the state of [rb_lock].  The result is the returned [int],
    the writes to the destination (none on the early returns), the lock
    and the ring. *)
Definition snprintf (fuel : nat) (dst : bool) (len : Z) (fmt : list ascii)
    (args : va_list) (lock : bool) (rb : s_ring)
  : option (Z * option dst_writes * bool * s_ring) :=
  if negb dst then Some (-1, None, lock, rb)
  else
    let '(ok, lock1) := mutex_trylock lock in
    if negb ok then Some (-1, None, lock1, rb)
    else
      '(res, rb1) ← print fuel fmt args rb;
      let sizew := u32 res in
      let to_copy := if sizew >=? len then u32 (len - 1) else sizew in
      let w := {| copy_src := u32 (end_ rb1 - sizew);
                  copy_len := to_copy; nul_at := to_copy |} in
      '(_, rb2) ← ring_buffer_rewind BUF_MAX sizew rb1;
      Some (s32 to_copy, Some w, mutex_unlock lock1, rb2).

End Interpreter.

(** *** The other public entry points *)

(** Modelled from the spec: the blocking acquire of the mutual-exclusion
    primitive waits for the lock.  In a sequential run nobody releases a
    held lock, so the call does not return: [None]. *)
Definition mutex_lock (lock : bool) : option bool :=
  if lock then None else Some true.

(** The bytes a call [sys_log(len, &buf[idx])] finds in the storage [b].
    A span that leaves the array reads memory the model does not hold;
    only the part inside the array is listed. *)
Definition sys_log_bytes (b : list ascii) (call : Z * Z) : list ascii :=
  take (Z.to_nat call.1) (drop (Z.to_nat call.2) b).

(** The calls of one drain, each with its length argument and the bytes
    at its pointer. *)
Definition logged (b : list ascii) (calls : list (Z * Z))
  : list (Z * list ascii) :=
  map (fun call => (call.1, sys_log_bytes b call)) calls.

(** The bytes [memcpy(dst, &buf[copy_src], copy_len)] takes from the
    storage [b], as far as the span lies inside the array. *)
Definition memcpy_bytes (b : list ascii) (w : dst_writes) : list ascii :=
  take (Z.to_nat (copy_len w)) (drop (Z.to_nat (copy_src w)) b).

Section EntryPoints.

Variable BUF_MAX : Z.
Variable BUF_SIZE : Z.

(** [printf]: the result is the returned [int], what went to [sys_log],
    the lock and the ring. *)
Definition printf (fuel : nat) (fmt : list ascii) (args : va_list)
    (lock : bool) (rb : s_ring)
  : option (Z * list (Z * list ascii) * bool * s_ring) :=
  lock1 ← mutex_lock lock;
  let '(calls1, rb1) := print_and_reset_buffer BUF_MAX BUF_SIZE rb in
  '(res, rb2) ← print BUF_MAX fuel fmt args rb1;
  let '(calls2, rb3) := print_and_reset_buffer BUF_MAX BUF_SIZE rb2 in
  Some (res, logged (buf rb) calls1 ++ logged (buf rb2) calls2,
        mutex_unlock lock1, rb3).

(** [sprintf], with the conventions of [snprintf]. *)
Definition sprintf (fuel : nat) (dst : bool) (fmt : list ascii)
    (args : va_list) (lock : bool) (rb : s_ring)
  : option (Z * option dst_writes * bool * s_ring) :=
  if negb dst then Some (-1, None, lock, rb)
  else
    let '(ok, lock1) := mutex_trylock lock in
    if negb ok then Some (-1, None, lock1, rb)
    else
      '(res, rb1) ← print BUF_MAX fuel fmt args rb;
      let sizew := u32 res in
      let w := {| copy_src := u32 (end_ rb1 - sizew);
                  copy_len := sizew; nul_at := sizew |} in
      '(_, rb2) ← ring_buffer_rewind BUF_MAX sizew rb1;
      Some (s32 sizew, Some w, mutex_unlock lock1, rb2).

(** [aprintf] *)
Definition aprintf (fuel : nat) (fmt : list ascii) (args : va_list)
    (lock : bool) (rb : s_ring) : option (Z * bool * s_ring) :=
  let '(ok, lock1) := mutex_trylock lock in
  if negb ok then Some (-1, lock1, rb)
  else
    '(res, rb1) ← print BUF_MAX fuel fmt args rb;
    Some (res, mutex_unlock lock1, rb1).

(** [aprintf_flush] *)
Definition aprintf_flush (lock : bool) (rb : s_ring)
  : Z * list (Z * list ascii) * bool * s_ring :=
  let '(ok, lock1) := mutex_trylock lock in
  if negb ok then (-1, [], lock1, rb)
  else
    let '(calls, rb1) := print_and_reset_buffer BUF_MAX BUF_SIZE rb in
    (0, logged (buf rb) calls, mutex_unlock lock1, rb1).

End EntryPoints.

(** The zero-filled ring of the BSS at boot. *)
Definition empty_ring (C : Z) : s_ring :=
  {| start := 0; end_ := 0; full := false; buf := replicate (Z.to_nat C) NUL |}.

Definition str (s : string) : list ascii := list_ascii_of_string s.

(** ** The queue of [embed/queue.c] *)

Module Queue.

Inductive mbed_error_t : Type :=
| MBED_ERROR_NONE
| MBED_ERROR_NOMEM
| MBED_ERROR_INVPARAM
| MBED_ERROR_BUSY
| MBED_ERROR_NOSTORAGE.

(** Modelled from the spec: [struct node] and [queue_t], whose header
    [api/queue.h] is missing here, are the cells of a doubly-linked list
    and the list head guarded by a single lock; the fields are those
    [queue.c] uses.  A pointer is an address, 0 for [NULL]; [data] is the
    [void*] the caller stored. *)
Record node : Type := mk_node {
  next : Z;
  prev : Z;
  data : Z
}.

Record queue_t : Type := mk_queue {
  head : Z;
  tail : Z;
  max : Z;
  size : Z;
  lock : bool
}.

Definition set_prev (p : Z) (nd : node) : node := mk_node (next nd) p (data nd).
Definition set_next (p : Z) (nd : node) : node := mk_node p (prev nd) (data nd).

Section Functions.

(** The constant [MAX_QUEUE_DEPTH] of the missing header. *)
Variable MAX_QUEUE_DEPTH : Z.

(** [queue_create].  [queue] tells whether the out-pointer is non-null
    and [alloc] whether [wmalloc] succeeds; the queue written to the
    out-pointer is returned. *)
Definition queue_create (capacity : Z) (queue : bool) (alloc : bool)
  : mbed_error_t * option queue_t :=
  if negb queue then (MBED_ERROR_INVPARAM, None)
  else if capacity >? MAX_QUEUE_DEPTH then (MBED_ERROR_INVPARAM, None)
  else if capacity =? 0 then (MBED_ERROR_INVPARAM, None)
  else if negb alloc then (MBED_ERROR_NOMEM, None)
  else
    (MBED_ERROR_NONE,
     Some {| head := 0; tail := 0; max := capacity; size := 0;
             lock := false |}).

End Functions.

(** [queue_enqueue].  The nodes live in the heap [h].  [q] is [None] for
    a null queue pointer.  [alloc] is what [wmalloc] gives: [None] when it
    fails, otherwise the address of the block and what the block holds.
    Following a pointer that the heap does not hold is undefined:
    [None]. *)
Definition queue_enqueue (q : option queue_t) (d : Z)
    (alloc : option (Z * node)) (h : gmap Z node)
  : option (mbed_error_t * option queue_t * gmap Z node) :=
  match q with
  | None => Some (MBED_ERROR_INVPARAM, None, h)
  | Some q =>
      if d =? 0 then Some (MBED_ERROR_INVPARAM, Some q, h)
      else if size q =? max q then Some (MBED_ERROR_NOMEM, Some q, h)
      else
        match alloc with
        | None => Some (MBED_ERROR_NOMEM, Some q, h)
        | Some (n, junk) =>
            let h0 := <[n := junk]> h in
            let '(ok, lock1) := mutex_trylock (lock q) in
            if negb ok then
              Some (MBED_ERROR_BUSY,
                    Some (mk_queue (head q) (tail q) (max q) (size q) lock1),
                    h0)
            else
              let h1 := <[n := mk_node (head q) 0 d]> h0 in
              h2 ← (if negb (head q =? 0) then
                      hd ← h1 !! head q;
                      Some (<[head q := set_prev n hd]> h1)
                    else Some h1);
              let tail' := if tail q =? 0 then n else tail q in
              Some (MBED_ERROR_NONE,
                    Some (mk_queue n tail' (max q) (u32 (size q + 1))
                                   (mutex_unlock lock1)),
                    h2)
        end
  end.

(** [queue_next_element]; the value stored in [*next] is returned. *)
Definition queue_next_element (q : option queue_t) (nextp : bool)
    (h : gmap Z node)
  : option (mbed_error_t * option Z * option queue_t) :=
  match q with
  | None => Some (MBED_ERROR_INVPARAM, None, None)
  | Some q =>
      if negb nextp then Some (MBED_ERROR_INVPARAM, None, Some q)
      else
        let '(ok, lock1) := mutex_trylock (lock q) in
        if negb ok then
          Some (MBED_ERROR_BUSY, None,
                Some (mk_queue (head q) (tail q) (max q) (size q) lock1))
        else if size q =? 0 then
          Some (MBED_ERROR_NOSTORAGE, Some 0,
                Some (mk_queue (head q) (tail q) (max q) (size q)
                               (mutex_unlock lock1)))
        else
          nd ← h !! tail q;
          Some (MBED_ERROR_NONE, Some (data nd),
                Some (mk_queue (head q) (tail q) (max q) (size q)
                               (mutex_unlock lock1)))
  end.

(** [queue_dequeue]; the value stored in [*data] is returned, and
    [wfree] gives the block of the removed node back. *)
Definition queue_dequeue (q : option queue_t) (datap : bool)
    (h : gmap Z node)
  : option (mbed_error_t * option Z * option queue_t * gmap Z node) :=
  match q with
  | None => Some (MBED_ERROR_INVPARAM, None, None, h)
  | Some q =>
      if negb datap then Some (MBED_ERROR_INVPARAM, None, Some q, h)
      else
        let '(ok, lock1) := mutex_trylock (lock q) in
        if negb ok then
          Some (MBED_ERROR_BUSY, None,
                Some (mk_queue (head q) (tail q) (max q) (size q) lock1), h)
        else if size q =? 0 then
          Some (MBED_ERROR_NOSTORAGE, None,
                Some (mk_queue (head q) (tail q) (max q) (size q)
                               (mutex_unlock lock1)), h)
        else
          let last := tail q in
          nd ← h !! last;
          h1 ← (if negb (prev nd =? 0) then
                  p ← h !! prev nd;
                  Some (<[prev nd := set_next 0 p]> h)
                else Some h);
          nd1 ← h1 !! last;
          let head' := if last =? head q then 0 else head q in
          Some (MBED_ERROR_NONE, Some (data nd),
                Some (mk_queue head' (prev nd1) (max q) (u32 (size q - 1))
                               (mutex_unlock lock1)),
                delete last h1)
  end.

(** [queue_is_empty] *)
Definition queue_is_empty (q : queue_t) : bool := size q =? 0.

(** [queue_available_space]; the value stored in [*space] is returned. *)
Definition queue_available_space (q : option queue_t) (spacep : bool)
  : mbed_error_t * option Z * option queue_t :=
  match q with
  | None => (MBED_ERROR_INVPARAM, None, None)
  | Some q =>
      if negb spacep then (MBED_ERROR_INVPARAM, None, Some q)
      else
        let '(ok, lock1) := mutex_trylock (lock q) in
        if negb ok then
          (MBED_ERROR_BUSY, None,
           Some (mk_queue (head q) (tail q) (max q) (size q) lock1))
        else
          (MBED_ERROR_NONE, Some (u32 (max q - size q)),
           Some (mk_queue (head q) (tail q) (max q) (size q)
                          (mutex_unlock lock1)))
  end.

(** The list of nodes reached from [p] through [next], each with its
    address and datum, [pr] being what the first node has in [prev]. *)
Fixpoint chain (h : gmap Z node) (p pr : Z) (l : list (Z * Z)) : Prop :=
  match l with
  | [] => p = 0
  | (a, d) :: l' =>
      p = a /\ a <> 0 /\
      exists nd, h !! a = Some nd /\ data nd = d /\ prev nd = pr /\
                 chain h (next nd) a l'
  end.

(** The queue [q] holds the nodes [l], the most recent first. *)
Definition queue_repr (h : gmap Z node) (q : queue_t) (l : list (Z * Z))
  : Prop :=
  chain h (head q) 0 l /\
  tail q = List.last (map fst l) 0 /\
  size q = Z.of_nat (length l) /\
  NoDup (map fst l) /\
  size q <= max q < 4294967296.

End Queue.

(** ** Statements of the specification, in its own words *)

(** The printable form of a digit below sixteen. *)
Definition digit_char (d : Z) : ascii :=
  nth (Z.to_nat d) (str "0123456789abcdef") NUL.

(** The number a list of digits denotes, most significant digit first. *)
Definition digits_value (base : Z) (ds : list Z) : Z :=
  fold_left (fun acc d => acc * base + d) ds 0.

(** [ds] is the representation of [v] in [base]: digits in range, no
    leading zero except for the single digit of zero. *)
Definition is_repr (base v : Z) (ds : list Z) : Prop :=
  Forall (fun d => 0 <= d < base) ds /\
  digits_value base ds = v /\
  (ds = [0] \/ exists d ds', ds = d :: ds' /\ d <> 0).

(** The digits of [v] in [base], most significant first: [v] alone when it
    is below the base, otherwise the digits of [v / base] followed by
    [v mod base].  [n] bounds the number of digits. *)
Fixpoint digits_be (n : nat) (base v : Z) : list Z :=
  match n with
  | O => []
  | S n' =>
      if v <? base then [v] else digits_be n' base (v / base) ++ [v mod base]
  end.

(** Digits of a 64-bit value. *)
Definition digits (base v : Z) : list Z := digits_be 64 base v.

(** The width a run of decimal digits leaves in the 8-bit [size] field. *)
Definition width_of (ds : list ascii) : Z :=
  fold_left (fun sz c => u8 (sz * 10 + (code c - code "0"))) ds 0.

(** A directive is ['%'], an optional zero flag with its width digits
    ([flag] holds the digits after the ['0']), then one more character. *)
Definition flag_text (flag : option (list ascii)) : list ascii :=
  match flag with None => [] | Some ds => "0"%char :: ds end.
Definition has_flag (flag : option (list ascii)) : bool :=
  match flag with None => false | Some _ => true end.
Definition flag_width (flag : option (list ascii)) : Z :=
  match flag with None => 0 | Some ds => width_of ds end.
Definition flag_ok (flag : option (list ascii)) : Prop :=
  match flag with
  | None => True
  | Some ds => Forall (fun d => is_digit d = true) ds /\ (length ds <= 250)%nat
  end.

(** The directive state once the flag has been read. *)
Definition fs_at_conv (flag : option (list ascii)) : fs_properties_t :=
  {| attr_0len := has_flag flag;
     attr_size := has_flag flag && negb (flag_width flag =? 0);
     size := flag_width flag;
     numeric_mode := FS_NUM_DECIMAL;
     started := true;
     consumed := 1 + Z.of_nat (length (flag_text flag)) |}.


(** The characters the switch of the interpreter has a case for. *)
Definition recognized : list ascii := str "%0dilhupxosc".

(** Writing [l] and rewinding by its length gives back the three cursor
    fields. *)
Definition rewind_restores (C : Z) (rb : s_ring) (l : list ascii) : Prop :=
  exists r rb',
    ring_buffer_rewind C (Z.of_nat (length l)) (ring_buffer_write_chars C l rb)
      = Some (r, rb') /\
    start rb' = start rb /\ end_ rb' = end_ rb /\ full rb' = full rb.

(** The characters of a C string: those before its first NUL. *)
Fixpoint until_nul (s : list ascii) : list ascii :=
  match s with
  | [] => []
  | c :: s' => if Ascii.eqb c NUL then [] else c :: until_nul s'
  end.

(** The slots a run of [n] writes starting at [e] goes through, in a ring
    of [C] slots. *)
Definition in_span (C e n p : Z) : bool := (p - e) mod C <? n.

(** The number a run of decimal digit characters spells. *)
Definition decimal_value (ds : list ascii) : Z :=
  fold_left (fun acc c => acc * 10 + (code c - code "0")) ds 0.






(** The rings a run of the library can produce: the ring as
    [init_ring_buffer] leaves it at boot, then any sequence of writes,
    drains and rewinds. *)
Inductive ring_reachable (C BUF_SIZE : Z) : s_ring -> Prop :=
| reach_boot (rb0 : s_ring) :
    Z.of_nat (length (buf rb0)) = C ->
    ring_reachable C BUF_SIZE (init_ring_buffer C rb0)
| reach_write (c : ascii) (rb : s_ring) :
    ring_reachable C BUF_SIZE rb ->
    ring_reachable C BUF_SIZE (ring_buffer_write_char C c rb)
| reach_drain (rb : s_ring) :
    ring_reachable C BUF_SIZE rb ->
    ring_reachable C BUF_SIZE (print_and_reset_buffer C BUF_SIZE rb).2
| reach_rewind (n r : Z) (rb rb' : s_ring) :
    ring_reachable C BUF_SIZE rb ->
    0 <= n < 4294967296 ->
    ring_buffer_rewind C n rb = Some (r, rb') ->
    ring_reachable C BUF_SIZE rb'.

(** ** The ring buffer: cursors and contents *)

Section RingBufferFacts.

Variable BUF_MAX : Z.

Local Abbreviation write_char := (ring_buffer_write_char BUF_MAX).
Local Abbreviation write_chars := (ring_buffer_write_chars BUF_MAX).
Local Abbreviation wf := (rb_wf BUF_MAX).
Local Abbreviation live := (rb_live BUF_MAX).
Local Abbreviation contents := (rb_contents BUF_MAX).

Lemma bind_Some {A B : Type} (x : A) (f : A -> option B) :
  (Some x ≫= f) = f x.
Proof. reflexivity. Qed.

Lemma succ_mod (e : Z) :
  0 <= e < BUF_MAX ->
  (e + 1) mod BUF_MAX = if e + 1 =? BUF_MAX then 0 else e + 1.
Proof.
  intros He. destruct (Z.eqb_spec (e + 1) BUF_MAX) as [Heq | Hne].
  - rewrite Heq. apply Z_mod_same_full.
  - apply Z.mod_small. lia.
Qed.

Lemma clear_range_length (lo hi : Z) (b : list ascii) :
  length (clear_range lo hi b) = length b.
Proof.
  unfold clear_range. generalize (seq (Z.to_nat lo) (Z.to_nat (hi - lo))).
  intros ks. revert b.
  induction ks as [| k ks IH]; intros b; simpl; [reflexivity |].
  rewrite IH. apply length_insert.
Qed.

Lemma clear_loop16_some (fuel : nat) :
  forall (i hi : Z) (b : list ascii),
    0 <= i -> hi <= 65535 -> (Z.to_nat (hi - i) <= fuel)%nat ->
    exists b', clear_loop16 fuel i hi b = Some b' /\ length b' = length b.
Proof.
  induction fuel as [| f IH]; intros i hi b Hi Hhi Hf; simpl.
  - destruct (Z.ltb_spec i hi); [lia |]. eauto.
  - destruct (Z.ltb_spec i hi) as [Hlt | Hge]; [| eauto].
    assert (Hu : u16 (i + 1) = i + 1) by (apply Z.mod_small; lia).
    rewrite Hu.
    destruct (IH (i + 1) hi (<[Z.to_nat i := NUL]> b)) as (b' & Hb' & Hlen);
      [lia | lia | lia |].
    exists b'. split; [exact Hb' |]. rewrite Hlen. apply length_insert.
Qed.

(** *** [ring_buffer_write_char] *)

Lemma write_char_full (c : ascii) (rb : s_ring) :
  full rb = true -> write_char c rb = rb.
Proof. intros H. unfold ring_buffer_write_char. rewrite H. reflexivity. Qed.

Lemma write_char_wf (c : ascii) (rb : s_ring) :
  wf rb -> wf (write_char c rb).
Proof.
  intros (Hs & He & Hl). unfold ring_buffer_write_char.
  destruct (full rb); [repeat split; lia |].
  destruct (Z.eqb_spec ((end_ rb + 1) mod BUF_MAX) (start rb)); simpl;
    unfold rb_wf; simpl; rewrite length_insert.
  - repeat split; lia.
  - pose proof (Z.mod_pos_bound (end_ rb + 1) BUF_MAX ltac:(lia)).
    repeat split; lia.
Qed.

Lemma write_char_inv (c : ascii) (rb : s_ring) :
  rb_inv BUF_MAX rb -> rb_inv BUF_MAX (write_char c rb).
Proof.
  intros [Hwf Hfull]. split; [apply write_char_wf; exact Hwf |].
  unfold ring_buffer_write_char.
  destruct (full rb) eqn:Hf; [rewrite Hf; exact Hfull |].
  destruct (Z.eqb_spec ((end_ rb + 1) mod BUF_MAX) (start rb)); simpl;
    [intros _; assumption | discriminate].
Qed.

(** An accepted write that does not saturate the ring moves [end_] one
    slot forward and leaves the other cursor fields alone. *)
Lemma write_char_room (c : ascii) (rb : s_ring) :
  wf rb -> full rb = false -> live rb < BUF_MAX - 1 ->
  let rb' := write_char c rb in
  start rb' = start rb /\ full rb' = false /\
  end_ rb' = (end_ rb + 1) mod BUF_MAX /\
  buf rb' = <[Z.to_nat (end_ rb) := c]> (buf rb) /\
  live rb' = live rb + 1.
Proof.
  intros (Hs & He & Hl) Hf Hlive. unfold rb_live in *.
  unfold ring_buffer_write_char. rewrite Hf.
  assert (Hne : (end_ rb + 1) mod BUF_MAX <> start rb).
  { intros Heq. rewrite succ_mod in Heq by lia.
    destruct (Z.eqb_spec (end_ rb + 1) BUF_MAX).
    - rewrite <- Heq in Hlive. rewrite Z.sub_0_r in Hlive.
      rewrite Z.mod_small in Hlive by lia. lia.
    - rewrite <- Heq in Hlive.
      replace (end_ rb - (end_ rb + 1)) with (-1 + 0) in Hlive by lia.
      replace (-1 + 0) with (BUF_MAX - 1 + (-1) * BUF_MAX) in Hlive by lia.
      rewrite Z.mod_add in Hlive by lia.
      rewrite Z.mod_small in Hlive by lia. lia. }
  destruct (Z.eqb_spec ((end_ rb + 1) mod BUF_MAX) (start rb)); [contradiction |].
  simpl. repeat split.
  rewrite succ_mod by lia.
  destruct (Z.eqb_spec (end_ rb + 1) BUF_MAX) as [Heq | Hneq].
  - (* the cursor wraps to slot 0 *)
    assert (Hst : start rb <> 0).
    { intros H0. apply Hne. rewrite succ_mod by lia.
      destruct (Z.eqb_spec (end_ rb + 1) BUF_MAX); lia. }
    replace (0 - start rb) with (BUF_MAX - start rb + (-1) * BUF_MAX) by lia.
    rewrite Z.mod_add by lia. rewrite Z.mod_small by lia.
    rewrite (Z.mod_small (end_ rb - start rb)) by lia. lia.
  - destruct (Z_le_gt_dec (start rb) (end_ rb)).
    + rewrite !Z.mod_small by lia. lia.
    + replace (end_ rb + 1 - start rb)
        with (end_ rb + 1 - start rb + BUF_MAX + (-1) * BUF_MAX) by lia.
      replace (end_ rb - start rb)
        with (end_ rb - start rb + BUF_MAX + (-1) * BUF_MAX) by lia.
      rewrite !Z.mod_add by lia.
      assert (end_ rb + 1 <> start rb).
      { intros Heq. apply Hne. rewrite succ_mod by lia.
        destruct (Z.eqb_spec (end_ rb + 1) BUF_MAX); lia. }
      rewrite !Z.mod_small by lia. lia.
Qed.

Lemma shift_mod_inj (s k j : Z) :
  0 <= k < BUF_MAX -> 0 <= j < BUF_MAX ->
  (s + k) mod BUF_MAX = (s + j) mod BUF_MAX -> k = j.
Proof.
  intros Hk Hj Heq.
  assert (Hz : (k - j) mod BUF_MAX = 0).
  { replace (k - j) with ((s + k) - (s + j)) by lia.
    rewrite Zminus_mod, Heq, Z.sub_diag. apply Z.mod_0_l. lia. }
  apply Z.mod_divide in Hz; [| lia]. destruct Hz as [q Hq].
  assert (Hq0 : q = 0) by nia. subst q. lia.
Qed.

Lemma live_end (rb : s_ring) :
  wf rb -> (start rb + live rb) mod BUF_MAX = end_ rb.
Proof.
  intros (Hs & He & _). unfold rb_live.
  rewrite Zplus_mod_idemp_r.
  replace (start rb + (end_ rb - start rb)) with (end_ rb) by lia.
  apply Z.mod_small. lia.
Qed.

Lemma live_bounds (rb : s_ring) : wf rb -> 0 <= live rb < BUF_MAX.
Proof. intros (Hs & _). apply Z.mod_pos_bound. lia. Qed.

Lemma write_char_contents (c : ascii) (rb : s_ring) :
  wf rb -> full rb = false -> live rb < BUF_MAX - 1 ->
  contents (write_char c rb) = contents rb ++ [c].
Proof.
  intros Hwf Hf Hroom.
  destruct (write_char_room c rb Hwf Hf Hroom) as (Hs & _ & _ & Hb & Hl).
  pose proof (live_bounds rb Hwf) as Hlb.
  pose proof (live_end rb Hwf) as Hend.
  destruct Hwf as (Hst & He & Hlen).
  unfold rb_contents. rewrite Hl, Hs, Hb.
  replace (Z.to_nat (live rb + 1)) with (S (Z.to_nat (live rb))) by lia.
  rewrite seq_S, map_app. simpl. f_equal.
  - apply map_ext_in. intros k Hk. apply in_seq in Hk.
    rewrite !nth_lookup. rewrite list_lookup_insert_ne; [reflexivity |].
    intros Heq. apply Z2Nat.inj in Heq; [| lia |].
    + rewrite <- Hend in Heq. apply shift_mod_inj in Heq; lia.
    + apply Z.mod_pos_bound. lia.
  - f_equal. rewrite Z2Nat.id by lia. rewrite Hend.
    rewrite nth_lookup, list_lookup_insert_eq; [reflexivity | lia].
Qed.

(** *** Sequences of writes *)

Lemma write_chars_cons (c : ascii) (l : list ascii) (rb : s_ring) :
  write_chars (c :: l) rb = write_chars l (write_char c rb).
Proof. reflexivity. Qed.

Lemma write_chars_app (l1 l2 : list ascii) (rb : s_ring) :
  write_chars (l1 ++ l2) rb = write_chars l2 (write_chars l1 rb).
Proof. unfold ring_buffer_write_chars. apply fold_left_app. Qed.

(** Writes that fit: the cursor fields and the contents afterwards. *)
Lemma write_chars_room (l : list ascii) :
  forall rb : s_ring,
    wf rb -> full rb = false ->
    live rb + Z.of_nat (length l) <= BUF_MAX - 1 ->
    let rb' := write_chars l rb in
    wf rb' /\ start rb' = start rb /\ full rb' = false /\
    live rb' = live rb + Z.of_nat (length l) /\
    end_ rb' = (end_ rb + Z.of_nat (length l)) mod BUF_MAX /\
    contents rb' = contents rb ++ l.
Proof.
  induction l as [| c l IH]; intros rb Hwf Hf Hroom.
  - simpl. destruct Hwf as (Hs & He & Hl).
    rewrite !Z.add_0_r, app_nil_r, Z.mod_small by lia.
    repeat split; auto; lia.
  - rewrite write_chars_cons.
    assert (Hlt : live rb < BUF_MAX - 1) by (simpl length in Hroom; lia).
    destruct (write_char_room c rb Hwf Hf Hlt) as (Hs & Hf' & He & _ & Hl).
    pose proof (write_char_contents c rb Hwf Hf Hlt) as Hc.
    pose proof (write_char_wf c rb Hwf) as Hwf'.
    destruct (IH (write_char c rb) Hwf' Hf') as (W & S1 & F1 & L1 & E1 & C1).
    { rewrite Hl. simpl length in Hroom. lia. }
    simpl length. repeat split; try apply W.
    + rewrite S1. exact Hs.
    + exact F1.
    + rewrite L1, Hl. lia.
    + rewrite E1, He, Zplus_mod_idemp_l. f_equal. lia.
    + rewrite C1, Hc, <- app_assoc. reflexivity.
Qed.

(** *** [ring_buffer_rewind] *)

Lemma rewind_ge (len : Z) (rb : s_ring) :
  len >= BUF_MAX -> ring_buffer_rewind BUF_MAX len rb = Some (0, rb).
Proof.
  intros H. unfold ring_buffer_rewind.
  destruct (Z.geb_spec len BUF_MAX); [reflexivity | lia].
Qed.

(** Below the guard the function always reports [len], whatever the
    ring holds, and moves [end_] back by [len] slots modulo [BUF_MAX]. *)
Lemma rewind_lt (len : Z) (rb : s_ring) :
  wf rb -> BUF_MAX <= 65535 -> 0 <= len < BUF_MAX ->
  exists rb',
    ring_buffer_rewind BUF_MAX len rb = Some (len, rb') /\
    start rb' = start rb /\ full rb' = full rb /\
    end_ rb' = (end_ rb - len) mod BUF_MAX /\
    length (buf rb') = length (buf rb).
Proof.
  intros (Hs & He & Hl) Hmax Hlen. unfold ring_buffer_rewind.
  destruct (Z.geb_spec len BUF_MAX); [lia |].
  destruct (Z.geb_spec (end_ rb) len) as [Hge | Hlt].
  - assert (Hu : u16 (end_ rb - len) = end_ rb - len)
      by (apply Z.mod_small; lia).
    rewrite Hu.
    destruct (clear_loop16_some fuel16 (end_ rb - len) (end_ rb) (buf rb))
      as (b' & Hb' & Hlb); [lia | lia | unfold fuel16; lia |].
    rewrite Hb', bind_Some. eexists. split; [reflexivity |]. simpl.
    repeat split; [| exact Hlb]. symmetry. apply Z.mod_small. lia.
  - destruct (clear_loop16_some fuel16 0 (end_ rb) (buf rb))
      as (b1 & Hb1 & Hlb1); [lia | lia | unfold fuel16; lia |].
    rewrite Hb1, bind_Some.
    assert (Hu : u16 (BUF_MAX - len + end_ rb) = BUF_MAX - len + end_ rb)
      by (apply Z.mod_small; lia).
    rewrite Hu.
    destruct (clear_loop16_some fuel16 (BUF_MAX - len + end_ rb) BUF_MAX b1)
      as (b2 & Hb2 & Hlb2); [lia | lia | unfold fuel16; lia |].
    rewrite Hb2, bind_Some. eexists. split; [reflexivity |]. simpl.
    repeat split; [| congruence].
    replace (end_ rb - len)
      with (BUF_MAX - len + end_ rb + (-1) * BUF_MAX) by lia.
    rewrite Z.mod_add by lia. symmetry. apply Z.mod_small. lia.
Qed.

Lemma rewind_wf (len : Z) (rb : s_ring) :
  wf rb -> BUF_MAX <= 65535 -> 0 <= len ->
  exists r rb', ring_buffer_rewind BUF_MAX len rb = Some (r, rb') /\ wf rb'.
Proof.
  intros Hwf Hmax Hlen. destruct (Z_lt_ge_dec len BUF_MAX) as [Hlt | Hge].
  - destruct (rewind_lt len rb Hwf Hmax) as (rb' & Hr & Hs & _ & He & Hl);
      [lia |].
    exists len, rb'. split; [exact Hr |].
    destruct Hwf as (Hs0 & He0 & Hl0). unfold rb_wf.
    rewrite Hs, He, Hl.
    pose proof (Z.mod_pos_bound (end_ rb - len) BUF_MAX ltac:(lia)).
    repeat split; lia.
  - exists 0, rb. split; [apply rewind_ge; exact Hge | exact Hwf].
Qed.

(** *** [print_and_reset_buffer] *)

Lemma fold_insert_length (ks : list nat) :
  forall b : list ascii,
    length (fold_left (fun acc k => <[k := NUL]> acc) ks b) = length b.
Proof.
  induction ks as [| k ks IH]; intros b; simpl; [reflexivity |].
  rewrite IH. apply length_insert.
Qed.

Lemma fold_insert_other (ks : list nat) (i : nat) :
  forall b : list ascii,
    ~ In i ks ->
    fold_left (fun acc k => <[k := NUL]> acc) ks b !! i = b !! i.
Proof.
  induction ks as [| k ks IH]; intros b Hin; simpl; [reflexivity |].
  rewrite IH by (intros H; apply Hin; right; exact H).
  apply list_lookup_insert_ne. intros ->. apply Hin. left. reflexivity.
Qed.

Lemma fold_insert_hit (ks : list nat) (i : nat) :
  forall b : list ascii,
    In i ks -> (i < length b)%nat ->
    fold_left (fun acc k => <[k := NUL]> acc) ks b !! i = Some NUL.
Proof.
  induction ks as [| k ks IH]; intros b Hin Hi; simpl; [destruct Hin |].
  destruct (in_dec Nat.eq_dec i ks) as [Hin' | Hout].
  - apply IH; [exact Hin' | rewrite length_insert; exact Hi].
  - rewrite fold_insert_other by exact Hout.
    destruct Hin as [-> | Hin]; [| contradiction].
    apply list_lookup_insert_eq. exact Hi.
Qed.

Lemma clear_range_all (b : list ascii) :
  Z.of_nat (length b) = BUF_MAX ->
  clear_range 0 BUF_MAX b = replicate (Z.to_nat BUF_MAX) NUL.
Proof.
  intros Hl. apply list_eq. intros i. unfold clear_range.
  rewrite Z.sub_0_r. change (Z.to_nat 0) with 0%nat.
  destruct (Nat.lt_ge_cases i (length b)) as [Hlt | Hge].
  - rewrite fold_insert_hit; [| apply in_seq; lia | exact Hlt].
    symmetry. apply lookup_replicate_2. lia.
  - rewrite (lookup_ge_None_2 (replicate _ _)) by (rewrite length_replicate; lia).
    apply lookup_ge_None_2. rewrite fold_insert_length. exact Hge.
Qed.

Lemma drain_inv (BUF_SIZE : Z) (rb : s_ring) :
  wf rb -> rb_inv BUF_MAX (print_and_reset_buffer BUF_MAX BUF_SIZE rb).2.
Proof.
  intros (Hs & He & Hl). split; simpl; [| discriminate].
  unfold rb_wf; simpl. rewrite clear_range_length. repeat split; lia.
Qed.

End RingBufferFacts.

(** ** Numbers and digits *)

Section NumberFacts.

Variable BUF_MAX : Z.

Local Abbreviation write_char := (ring_buffer_write_char BUF_MAX).
Local Abbreviation write_chars := (ring_buffer_write_chars BUF_MAX).

Lemma write_digit_char (d : Z) (rb : s_ring) :
  0 <= d < 16 ->
  ring_buffer_write_digit BUF_MAX d rb = write_char (digit_char d) rb.
Proof.
  intros Hd.
  assert (H : d = 0 \/ d = 1 \/ d = 2 \/ d = 3 \/ d = 4 \/ d = 5 \/ d = 6 \/
              d = 7 \/ d = 8 \/ d = 9 \/ d = 10 \/ d = 11 \/ d = 12 \/
              d = 13 \/ d = 14 \/ d = 15) by lia.
  repeat (destruct H as [-> | H]; [reflexivity |]). subst d. reflexivity.
Qed.

Lemma write_digits_chars (ds : list Z) :
  forall rb : s_ring,
    Forall (fun d => 0 <= d < 16) ds ->
    fold_left (fun r d => ring_buffer_write_digit BUF_MAX d r) ds rb
    = write_chars (map digit_char ds) rb.
Proof.
  induction ds as [| d ds IH]; intros rb Hds; [reflexivity |].
  inversion Hds as [| ? ? Hd Hds']; subst. simpl.
  rewrite write_digit_char by exact Hd. apply IH. exact Hds'.
Qed.

Lemma digits_value_snoc (base : Z) (ds : list Z) (d : Z) :
  digits_value base (ds ++ [d]) = digits_value base ds * base + d.
Proof. unfold digits_value. rewrite fold_left_app. reflexivity. Qed.

Lemma number_cells_eq (fuel : nat) (value base : Z) (acc : list Z) :
  number_cells fuel value base acc =
  if negb (value / base =? 0) then
    match fuel with
    | O => None
    | S f => number_cells f (value / base) base (value mod base :: acc)
    end
  else Some (value mod base :: acc).
Proof. destruct fuel; reflexivity. Qed.

Lemma get_number_len_loop_eq (fuel : nat) (value base len : Z) :
  get_number_len_loop fuel value base len =
  if negb (value / base =? 0) then
    match fuel with
    | O => None
    | S f => get_number_len_loop f (value / base) base (u8 (len + 1))
    end
  else Some len.
Proof. destruct fuel; reflexivity. Qed.

(** The cells filled by the first loop, read from the last one stored,
    are the digits of the value. *)
Lemma number_cells_digits (base : Z) (fuel : nat) :
  forall (v : Z) (acc : list Z),
    2 <= base -> 0 <= v < 2 ^ (Z.of_nat fuel + 1) ->
    number_cells fuel v base acc
    = Some (digits_be (S fuel) base v ++ acc).
Proof.
  induction fuel as [| f IH]; intros v acc Hb Hv; rewrite number_cells_eq.
  - change (2 ^ (Z.of_nat 0 + 1)) with 2 in Hv.
    rewrite Z.div_small by lia. simpl. rewrite Z.mod_small by lia.
    destruct (Z.ltb_spec v base); [reflexivity | lia].
  - destruct (Z.eqb_spec (v / base) 0) as [Hz | Hnz]; cbn [negb].
    + apply Z.div_small_iff in Hz; [| lia].
      destruct Hz as [Hz | Hz]; [| lia].
      rewrite Z.mod_small by lia. cbn [digits_be].
      destruct (Z.ltb_spec v base); [reflexivity | lia].
    + assert (Hge : base <= v).
      { destruct (Z_lt_le_dec v base) as [Hlt | Hle]; [| exact Hle].
        exfalso. apply Hnz. apply Z.div_small. lia. }
      rewrite IH; [| exact Hb |].
      * change (digits_be (S (S f)) base v)
          with (if v <? base then [v]
                else digits_be (S f) base (v / base) ++ [v mod base]).
        destruct (Z.ltb_spec v base); [lia |].
        rewrite <- app_assoc. reflexivity.
      * split; [apply Z.div_pos; lia |].
        apply Z.div_lt_upper_bound; [lia |].
        replace (Z.of_nat (S f) + 1) with (Z.succ (Z.of_nat f + 1)) in Hv by lia.
        rewrite Z.pow_succ_r in Hv by lia.
        pose proof (Z.pow_pos_nonneg 2 (Z.of_nat f + 1) ltac:(lia) ltac:(lia)).
        nia.
Qed.

(** [digits_be] gives the positional representation. *)
Lemma digits_be_repr (base : Z) (n : nat) :
  forall v : Z,
    2 <= base -> 0 <= v < 2 ^ (Z.of_nat n + 1) ->
    is_repr base v (digits_be (S n) base v).
Proof.
  assert (Hsingle : forall v, 0 <= v < base -> is_repr base v [v]).
  { intros v Hv. repeat split.
    - constructor; [lia | constructor].
    - destruct (Z.eq_dec v 0) as [-> | Hne]; [left; reflexivity |].
      right. exists v, []. auto. }
  induction n as [| n IH]; intros v Hb Hv.
  - change (2 ^ (Z.of_nat 0 + 1)) with 2 in Hv. simpl.
    destruct (Z.ltb_spec v base); [| lia]. apply Hsingle. lia.
  - change (digits_be (S (S n)) base v)
      with (if v <? base then [v]
            else digits_be (S n) base (v / base) ++ [v mod base]).
    destruct (Z.ltb_spec v base) as [Hlt | Hge]; [apply Hsingle; lia |].
    destruct (IH (v / base) Hb) as (Hall & Hval & Hhd).
    { split; [apply Z.div_pos; lia |].
      apply Z.div_lt_upper_bound; [lia |].
      replace (Z.of_nat (S n) + 1) with (Z.succ (Z.of_nat n + 1)) in Hv by lia.
      rewrite Z.pow_succ_r in Hv by lia.
      pose proof (Z.pow_pos_nonneg 2 (Z.of_nat n + 1) ltac:(lia) ltac:(lia)).
      nia. }
    repeat split.
    + apply Forall_app. split; [exact Hall |].
      constructor; [apply Z.mod_pos_bound; lia | constructor].
    + rewrite digits_value_snoc, Hval.
      rewrite (Z.div_mod v base) at 3 by lia. lia.
    + right. destruct Hhd as [Heq | (d & ds' & Heq & Hd)].
      * exfalso. rewrite Heq in Hval. cbn in Hval.
        assert (v / base > 0); [| lia].
        apply Z.lt_gt, Z.div_str_pos. lia.
      * rewrite Heq. exists d, (ds' ++ [v mod base]). auto.
Qed.

(** [get_number_len] counts the cells [ring_buffer_write_number] fills. *)
Lemma number_len_cells (base : Z) (fuel : nat) :
  forall (v : Z) (acc ds : list Z) (len : Z),
    number_cells fuel v base acc = Some ds ->
    0 <= len -> len + Z.of_nat fuel < 256 ->
    get_number_len_loop (S fuel) v base len
    = Some (len + Z.of_nat (length ds) - Z.of_nat (length acc) - 1).
Proof.
  induction fuel as [| f IH]; intros v acc ds len Hc Hl Hf;
    rewrite number_cells_eq in Hc; rewrite get_number_len_loop_eq;
    destruct (Z.eqb_spec (v / base) 0) as [Hz | Hnz]; cbn [negb] in Hc |- *.
  - inversion Hc; subst. simpl length. f_equal. lia.
  - discriminate.
  - inversion Hc; subst. simpl length. f_equal. lia.
  - assert (Hu : u8 (len + 1) = len + 1) by (apply Z.mod_small; lia).
    rewrite Hu. rewrite (IH _ _ _ _ Hc) by lia. simpl length. f_equal. lia.
Qed.

Lemma number_len_digits (base v : Z) :
  2 <= base -> 0 <= v < 2 ^ 64 ->
  is_repr base v (digits base v) /\
  number_cells 63 v base [] = Some (digits base v) /\
  get_number_len v base = Some (Z.of_nat (length (digits base v))).
Proof.
  intros Hb Hv.
  assert (Hcells : number_cells 63 v base [] = Some (digits base v)).
  { rewrite (number_cells_digits base 63 v [] Hb) by exact Hv.
    rewrite app_nil_r. reflexivity. }
  split; [apply (digits_be_repr base 63 v Hb); exact Hv |].
  split; [exact Hcells |].
  unfold get_number_len.
  rewrite (number_len_cells base 63 v [] _ 1 Hcells) by lia.
  f_equal. simpl length. lia.
Qed.

End NumberFacts.

(** ** The interpreter: reaching the conversion character *)

Section InterpreterFacts.

Variable BUF_MAX : Z.

Local Abbreviation write_char := (ring_buffer_write_char BUF_MAX).
Local Abbreviation write_chars := (ring_buffer_write_chars BUF_MAX).

Lemma fmt_at_mid (l1 l2 : list ascii) (x : ascii) (i : Z) :
  i = Z.of_nat (length l1) -> fmt_at (l1 ++ x :: l2) i = Some x.
Proof.
  intros ->. unfold fmt_at.
  destruct (Z.ltb_spec (Z.of_nat (length l1)) 0); [lia |].
  destruct (Z.ltb_spec (Z.of_nat (length l1))
                       (Z.of_nat (length (l1 ++ x :: l2)))) as [_ | Hge].
  - rewrite Nat2Z.id. f_equal. apply nth_middle.
  - rewrite length_app in Hge. simpl in Hge. lia.
Qed.

Lemma parse_size_eq (fuel : nat) (fmt : list ascii) (base : Z)
    (fs : fs_properties_t) :
  parse_size fuel fmt base fs =
  fmt_at fmt (base + (consumed fs + 1)) ≫= fun c =>
    if is_digit c then
      match fuel with
      | O => None
      | S f =>
          parse_size f fmt base
            (incr_consumed
               (set_size (u8 (size fs * 10 + (code c - code "0"))) fs))
      end
    else Some fs.
Proof. destruct fuel; reflexivity. Qed.

(** The width loop runs over the digits and stops on the first other
    character; no field but [size] and [consumed] changes. *)
Lemma parse_size_digits (c : ascii) (rest : list ascii) (base : Z)
    (ds : list ascii) :
  forall (pre : list ascii) (fs : fs_properties_t) (fuel : nat),
    Forall (fun d => is_digit d = true) ds -> is_digit c = false ->
    base + (consumed fs + 1) = Z.of_nat (length pre) ->
    0 <= consumed fs -> consumed fs + Z.of_nat (length ds) <= 254 ->
    (length ds <= fuel)%nat ->
    parse_size fuel (pre ++ ds ++ c :: rest) base fs
    = Some (mk_fs (attr_0len fs) (attr_size fs)
              (fold_left (fun sz d => u8 (sz * 10 + (code d - code "0")))
                         ds (size fs))
              (numeric_mode fs) (started fs)
              (consumed fs + Z.of_nat (length ds))).
Proof.
  induction ds as [| d ds IH]; intros pre fs fuel Hds Hc Hpos H0 Hmax Hfuel;
    rewrite parse_size_eq.
  - simpl app. rewrite (fmt_at_mid pre rest c) by exact Hpos.
    rewrite bind_Some, Hc. destruct fs; simpl. do 2 f_equal. lia.
  - inversion Hds as [| ? ? Hd Hds']; subst.
    simpl app. rewrite (fmt_at_mid pre (ds ++ c :: rest) d) by exact Hpos.
    rewrite bind_Some, Hd.
    destruct fuel as [| f]; [simpl in Hfuel; lia |].
    simpl length in Hmax, Hfuel.
    assert (Hu : u8 (consumed fs + 1) = consumed fs + 1)
      by (apply Z.mod_small; lia).
    replace (pre ++ d :: ds ++ c :: rest)
      with ((pre ++ [d]) ++ ds ++ c :: rest)
      by (rewrite <- app_assoc; reflexivity).
    rewrite IH; try assumption.
    + destruct fs; simpl in *. rewrite Hu. do 2 f_equal. lia.
    + destruct fs; simpl in *. rewrite Hu, length_app. simpl. lia.
    + destruct fs; simpl in *. rewrite Hu. lia.
    + destruct fs; simpl in *. rewrite Hu. lia.
    + lia.
Qed.

Lemma fs_loop_eq (f : nat) (fmt : list ascii) (base : Z)
    (fs : fs_properties_t) (args : va_list) (rb : s_ring) :
  fs_loop BUF_MAX (S f) fmt base fs args rb =
  fs_switch BUF_MAX (S f) fmt base fs args rb ≫= fun o =>
    match o with
    | FsBreak fs' args' rb' =>
        fmt_at fmt (base + consumed (incr_consumed fs')) ≫= fun c =>
          if Ascii.eqb c NUL
          then Some (0, u8 (consumed (incr_consumed fs') + 1), args', rb')
          else fs_loop BUF_MAX f fmt base (incr_consumed fs') args' rb'
    | FsEnd fs' args' rb' => Some (0, u8 (consumed fs' + 1), args', rb')
    | FsErr args' rb' => Some (1, 0, args', rb')
    end.
Proof. reflexivity. Qed.

Lemma eqb_NUL_false (c : ascii) : c <> NUL -> Ascii.eqb c NUL = false.
Proof. intros H. apply Ascii.eqb_neq. exact H. Qed.

(** From the ['%'] to the character after the flag: the loop arrives
    there with the state [fs_at_conv flag], the arguments and the ring
    untouched. *)
Lemma fs_loop_reach (flag : option (list ascii)) (c : ascii)
    (pre rest : list ascii) (args : va_list) (rb : s_ring) (fuel : nat) :
  c <> NUL -> flag_ok flag ->
  (has_flag flag = true -> is_digit c = false) ->
  (length (flag_text flag) + 3 <= fuel)%nat ->
  exists f,
    fs_loop BUF_MAX fuel (pre ++ "%"%char :: flag_text flag ++ c :: rest)
            (Z.of_nat (length pre)) fs_init args rb
    = fs_loop BUF_MAX (S f) (pre ++ "%"%char :: flag_text flag ++ c :: rest)
              (Z.of_nat (length pre)) (fs_at_conv flag) args rb.
Proof.
  intros Hc Hok Hdig Hfuel.
  destruct fuel as [| [| [| f]]]; try lia.
  set (fmt := pre ++ "%"%char :: flag_text flag ++ c :: rest).
  set (base := Z.of_nat (length pre)).
  assert (H0 : fmt_at fmt (base + 0) = Some "%"%char)
    by (apply fmt_at_mid; unfold base; lia).
  rewrite fs_loop_eq. unfold fs_switch at 1.
  change (consumed fs_init) with 0. rewrite H0, bind_Some.
  change (Ascii.eqb "%" "%") with true. cbv iota.
  change (negb (started fs_init)) with true. cbv iota.
  rewrite bind_Some.
  change (consumed (incr_consumed (set_started fs_init))) with 1.
  destruct flag as [ds |].
  - destruct Hok as [Hds Hlen]. simpl flag_text in *.
    assert (H1 : fmt_at fmt (base + 1) = Some "0"%char).
    { unfold fmt.
      replace (pre ++ "%"%char :: ("0"%char :: ds) ++ c :: rest)
        with ((pre ++ ["%"%char]) ++ "0"%char :: ds ++ c :: rest)
        by (rewrite <- app_assoc; reflexivity).
      apply fmt_at_mid. rewrite length_app. unfold base. simpl. lia. }
    rewrite H1, bind_Some. change (Ascii.eqb "0" NUL) with false. cbv iota.
    rewrite fs_loop_eq. unfold fs_switch at 1.
    change (consumed (incr_consumed (set_started fs_init))) with 1.
    rewrite H1, bind_Some.
    change (Ascii.eqb "0" "%") with false. cbv iota.
    change (Ascii.eqb "0" "0") with true. cbv iota.
    change (negb (started (incr_consumed (set_started fs_init)))) with false.
    cbv iota.
    assert (Hp : parse_size (S (S f)) fmt base
                   (set_attr_0len (incr_consumed (set_started fs_init)))
                 = Some (mk_fs true false (width_of ds) FS_NUM_DECIMAL true
                               (1 + Z.of_nat (length ds)))).
    { unfold fmt.
      replace (pre ++ "%"%char :: ("0"%char :: ds) ++ c :: rest)
        with ((pre ++ ["%"%char; "0"%char]) ++ ds ++ c :: rest)
        by (rewrite <- app_assoc; reflexivity).
      rewrite (parse_size_digits c rest base ds); try assumption.
      - reflexivity.
      - apply Hdig. reflexivity.
      - rewrite length_app. unfold base. simpl.
        change (u8 (0 + 1)) with 1. lia.
      - simpl. change (u8 (0 + 1)) with 1. lia.
      - simpl. change (u8 (0 + 1)) with 1. lia.
      - simpl in Hfuel. lia. }
    rewrite Hp, !bind_Some.
    assert (Hfs : incr_consumed
              (if negb (size (mk_fs true false (width_of ds) FS_NUM_DECIMAL
                                true (1 + Z.of_nat (length ds))) =? 0)
               then set_attr_size
                      (mk_fs true false (width_of ds) FS_NUM_DECIMAL true
                             (1 + Z.of_nat (length ds)))
               else mk_fs true false (width_of ds) FS_NUM_DECIMAL true
                      (1 + Z.of_nat (length ds)))
            = fs_at_conv (Some ds)).
    { unfold fs_at_conv, incr_consumed, set_attr_size. simpl.
      assert (Hu : u8 (1 + Z.of_nat (length ds) + 1)
                   = 1 + Z.pos (Pos.of_succ_nat (length ds)))
        by (unfold u8; rewrite Z.mod_small; lia).
      destruct (width_of ds =? 0); simpl; rewrite Hu; reflexivity. }
    rewrite Hfs.
    assert (H2 : fmt_at fmt (base + consumed (fs_at_conv (Some ds))) = Some c).
    { unfold fmt.
      replace (pre ++ "%"%char :: ("0"%char :: ds) ++ c :: rest)
        with ((pre ++ "%"%char :: "0"%char :: ds) ++ c :: rest)
        by (rewrite <- app_assoc; reflexivity).
      apply fmt_at_mid. rewrite length_app. unfold base. simpl. lia. }
    rewrite H2, bind_Some, (eqb_NUL_false c Hc). exists f. reflexivity.
  - simpl flag_text in *.
    assert (H1 : fmt_at fmt (base + 1) = Some c).
    { unfold fmt.
      replace (pre ++ "%"%char :: [] ++ c :: rest)
        with ((pre ++ ["%"%char]) ++ c :: rest)
        by (rewrite <- app_assoc; reflexivity).
      apply fmt_at_mid. rewrite length_app. unfold base. simpl. lia. }
    rewrite H1, bind_Some, (eqb_NUL_false c Hc). exists (S f). reflexivity.
Qed.

(** *** What the conversions write *)

Lemma pad_zero_chars (len sz : Z) (rb : s_ring) :
  pad_zero BUF_MAX len sz rb
  = write_chars (replicate (Z.to_nat (sz - len)) "0"%char) rb.
Proof.
  unfold pad_zero. generalize (Z.to_nat (sz - len)). intros n. revert rb.
  induction n as [| n IH]; intros rb; [reflexivity |].
  rewrite Nat.iter_succ_r, IH. reflexivity.
Qed.





(** The case [p] of the switch: the padding does not look at the flags. *)
Lemma fs_switch_pointer (fuel : nat) (fmt : list ascii) (base : Z)
    (fs : fs_properties_t) (w : Z) (args : va_list) (rb : s_ring) :
  fmt_at fmt (base + consumed fs) = Some "p"%char -> started fs = true ->
  fs_switch BUF_MAX fuel fmt base fs (Arg32 w :: args) rb
  = Some (FsEnd fs args
            (write_chars
               (str "0x"
                ++ replicate
                     (Z.to_nat (size fs - Z.of_nat (length (digits 16 (u32 w)))))
                     "0"%char
                ++ map digit_char (digits 16 (u32 w))) rb)).
Proof.
  intros Hat Hst.
  destruct (number_len_digits 16 (u32 w)) as (Hr & Hcells & Hlen).
  { lia. }
  { unfold u32. pose proof (Z.mod_pos_bound w 4294967296 ltac:(lia)). lia. }
  unfold fs_switch. rewrite Hat, bind_Some, Hst.
  change (Ascii.eqb "p" "%") with false. change (Ascii.eqb "p" "0") with false.
  change (Ascii.eqb "p" "d" || Ascii.eqb "p" "i") with false.
  change (Ascii.eqb "p" "l") with false. change (Ascii.eqb "p" "h") with false.
  change (Ascii.eqb "p" "u") with false. change (Ascii.eqb "p" "p") with true.
  cbv iota. change (negb true) with false. cbv iota.
  change (va_arg_uint32 (Arg32 w :: args)) with (Some (u32 w, args)).
  rewrite bind_Some. cbv beta iota. rewrite Hlen, bind_Some.
  unfold ring_buffer_write_number. rewrite Hcells, bind_Some, bind_Some.
  rewrite write_digits_chars.
  - rewrite pad_zero_chars, !write_chars_app. reflexivity.
  - destruct Hr as (Hall & _). eapply Forall_impl; [exact Hall |].
    simpl. intros d Hd. lia.
Qed.

(** An unrecognized character takes the [default] case. *)
Lemma fs_switch_default (c : ascii) (fuel : nat) (fmt : list ascii) (base : Z)
    (fs : fs_properties_t) (args : va_list) (rb : s_ring) :
  ~ In c recognized ->
  fmt_at fmt (base + consumed fs) = Some c ->
  fs_switch BUF_MAX fuel fmt base fs args rb = Some (FsErr args rb).
Proof.
  intros Hnot Hat. unfold fs_switch. rewrite Hat, bind_Some.
  assert (Hne : forall d, In d recognized -> Ascii.eqb c d = false).
  { intros d Hd. apply Ascii.eqb_neq. intros ->. contradiction. }
  rewrite !Hne by (simpl; tauto). reflexivity.
Qed.

Lemma fmt_at_conv (flag : option (list ascii)) (c : ascii)
    (pre rest : list ascii) :
  fmt_at (pre ++ "%"%char :: flag_text flag ++ c :: rest)
         (Z.of_nat (length pre) + consumed (fs_at_conv flag)) = Some c.
Proof.
  replace (pre ++ "%"%char :: flag_text flag ++ c :: rest)
    with ((pre ++ "%"%char :: flag_text flag) ++ c :: rest)
    by (rewrite <- app_assoc; reflexivity).
  apply fmt_at_mid. rewrite length_app. simpl. lia.
Qed.

Lemma flag_text_length (flag : option (list ascii)) :
  flag_ok flag -> (length (flag_text flag) <= 251)%nat.
Proof. destruct flag as [ds |]; simpl; [intros [_ H] |]; lia. Qed.

Lemma consumed_at_conv (flag : option (list ascii)) :
  flag_ok flag ->
  u8 (consumed (fs_at_conv flag) + 1)
  = Z.of_nat (length (flag_text flag)) + 2.
Proof.
  intros Hok. pose proof (flag_text_length flag Hok).
  unfold u8. simpl consumed. rewrite Z.mod_small; lia.
Qed.

(** *** The print driver on literal text *)

Lemma print_loop_eq (f : nat) (fmt : list ascii) (i : Z) (args : va_list)
    (rb : s_ring) :
  print_loop BUF_MAX (S f) fmt i args rb =
  fmt_at fmt i ≫= fun c =>
    if Ascii.eqb c NUL then Some (i, rb)
    else if Ascii.eqb c "%" then
      print_handle_format_string BUF_MAX (S f) fmt i args rb ≫=
        fun '(status, consumed, args', rb') =>
          if negb (status =? 0) then Some (-1, rb')
          else print_loop BUF_MAX f fmt (i + consumed) args' rb'
    else print_loop BUF_MAX f fmt (i + 1) args (write_char c rb).
Proof. reflexivity. Qed.

Lemma print_loop_literal (lit : list ascii) :
  forall (pre rest : list ascii) (args : va_list) (rb : s_ring) (f : nat),
    Forall (fun c => c <> "%"%char /\ c <> NUL) lit ->
    print_loop BUF_MAX (length lit + f) (pre ++ lit ++ rest)
               (Z.of_nat (length pre)) args rb
    = print_loop BUF_MAX f (pre ++ lit ++ rest)
                 (Z.of_nat (length pre) + Z.of_nat (length lit)) args
                 (write_chars lit rb).
Proof.
  induction lit as [| c lit IH]; intros pre rest args rb f Hlit.
  - simpl. rewrite Z.add_0_r. reflexivity.
  - inversion Hlit as [| ? ? [Hpc Hnul] Hlit']; subst.
    change (length (c :: lit) + f)%nat with (S (length lit + f)).
    rewrite print_loop_eq.
    rewrite (fmt_at_mid pre (lit ++ rest) c) by reflexivity.
    rewrite bind_Some, (eqb_NUL_false c Hnul).
    assert (Hp : Ascii.eqb c "%" = false) by (apply Ascii.eqb_neq; exact Hpc).
    rewrite Hp.
    replace (pre ++ (c :: lit) ++ rest) with ((pre ++ [c]) ++ lit ++ rest)
      by (rewrite <- app_assoc; reflexivity).
    replace (Z.of_nat (length pre) + 1) with (Z.of_nat (length (pre ++ [c])))
      by (rewrite length_app; simpl; lia).
    rewrite IH by exact Hlit'. rewrite write_chars_cons.
    f_equal. rewrite length_app. simpl. lia.
Qed.

(** *** An unrecognized character after the flag *)

Lemma interpreter_unrecognized (flag : option (list ascii)) (c : ascii)
    (pre rest : list ascii) (args : va_list) (rb : s_ring) (fuel : nat) :
  ~ In c recognized -> c <> NUL -> flag_ok flag ->
  (has_flag flag = true -> is_digit c = false) ->
  (length (flag_text flag) + 3 <= fuel)%nat ->
  print_handle_format_string BUF_MAX fuel
    (pre ++ "%"%char :: flag_text flag ++ c :: rest)
    (Z.of_nat (length pre)) args rb
  = Some (1, 0, args, rb).
Proof.
  intros Hnot Hnul Hok Hdig Hfuel. unfold print_handle_format_string.
  destruct (fs_loop_reach flag c pre rest args rb fuel Hnul Hok Hdig Hfuel)
    as (f & Hreach).
  rewrite Hreach, fs_loop_eq.
  rewrite (fs_switch_default c (S f) _ (Z.of_nat (length pre))
             (fs_at_conv flag) args rb Hnot (fmt_at_conv flag c pre rest)).
  reflexivity.
Qed.

(** Whatever the driver has written when it meets such a directive, it
    returns -1 and the ring as it is. *)
Lemma print_loop_unrecognized (flag : option (list ascii)) (c : ascii)
    (pre rest : list ascii) (args : va_list) (rb : s_ring) (fuel : nat) :
  ~ In c recognized -> c <> NUL -> flag_ok flag ->
  (has_flag flag = true -> is_digit c = false) ->
  (length (flag_text flag) + 3 <= fuel)%nat ->
  print_loop BUF_MAX fuel (pre ++ "%"%char :: flag_text flag ++ c :: rest)
             (Z.of_nat (length pre)) args rb
  = Some (-1, rb).
Proof.
  intros Hnot Hnul Hok Hdig Hfuel.
  destruct fuel as [| f]; [lia |]. rewrite print_loop_eq.
  rewrite (fmt_at_mid pre _ "%"%char) by reflexivity.
  rewrite bind_Some. change (Ascii.eqb "%" NUL) with false.
  change (Ascii.eqb "%" "%") with true. cbv iota.
  rewrite interpreter_unrecognized by assumption. reflexivity.
Qed.

End InterpreterFacts.

(** ** The print driver's return value *)

(** C1 (defect in the code): [print] returns its template cursor [i], not
    the number of characters produced.  On the template ["%d"] with the
    argument 12345 it returns 2, the length of the template, while the five
    characters ["12345"] went into the ring; [snprintf] and [sprintf] then
    use that value as the length of what was just written. *)
Theorem print_returns_template_cursor :
  exists rb',
    print 64 8 (str "%d") [Arg32 12345] (empty_ring 64) = Some (2, rb') /\
    rb_contents 64 rb' = str "12345" /\
    Z.of_nat (length (rb_contents 64 rb')) = 5.
Proof. vm_compute. eexists. repeat split; reflexivity. Qed.

(** ** Signed decimal *)

(** C2 (defect in the code): the [int] read for [%d] is handed to the
    [uint64_t] parameters of [get_number_len] and [ring_buffer_write_number];
    no case of the interpreter writes a minus sign.  For -1 the directive
    writes the twenty digits of 2^64 - 1. *)
Theorem percent_d_negative_one :
  exists rb',
    print_handle_format_string 64 8 (str "%d") 0 [Arg32 (-1)] (empty_ring 64)
      = Some (0, 2, [], rb') /\
    rb_contents 64 rb' = str "18446744073709551615".
Proof. vm_compute. eexists. split; reflexivity. Qed.

(** ** Writing, then rewinding *)

(** C3, as stated, fails: [ring_buffer_rewind] never touches [full], and
    the write that saturates the ring stores its byte without moving
    [end_].  With capacity 8 and six bytes live, two more writes set [full]
    and leave [end_] at 7; rewinding by 2 gives [end_ = 5] and [full] still
    set, against 6 and unset before the writes. *)
Lemma rewind_after_saturation_not_restored :
  rb_wf 8 (ring_buffer_write_chars 8 (str "123456") (empty_ring 8)) /\
  full (ring_buffer_write_chars 8 (str "123456") (empty_ring 8)) = false /\
  ~ rewind_restores 8
      (ring_buffer_write_chars 8 (str "123456") (empty_ring 8)) (str "ab").
Proof.
  split; [vm_compute; repeat split; discriminate |].
  split; [reflexivity |].
  intros (r & rb' & Hrew & _ & He & _).
  vm_compute in Hrew. inversion Hrew; subst. vm_compute in He. discriminate.
Qed.

(** C3 (amended): from a ring with cursors in range and [full] unset,
    writes that do not saturate the ring (live bytes plus written bytes at
    most [BUF_MAX - 1]) followed by a rewind of their number give back
    [start], [end_] and [full]. *)
Theorem rewind_after_writes (C : Z) (rb : s_ring) (l : list ascii) :
  rb_wf C rb -> full rb = false -> C <= 65535 ->
  rb_live C rb + Z.of_nat (length l) <= C - 1 ->
  rewind_restores C rb l.
Proof.
  intros Hwf Hf Hmax Hroom.
  destruct (write_chars_room C l rb Hwf Hf Hroom) as (W & S1 & F1 & L1 & E1 & _).
  pose proof (live_bounds C rb Hwf) as Hlb.
  destruct (rewind_lt C (Z.of_nat (length l)) _ W Hmax) as (rb' & Hr & S2 & F2 & E2 & _);
    [lia |].
  exists (Z.of_nat (length l)), rb'. split; [exact Hr |].
  rewrite S2, F2, E2, S1, F1, E1. repeat split; [| congruence].
  rewrite Zminus_mod_idemp_l.
  replace (end_ rb + Z.of_nat (length l) - Z.of_nat (length l)) with (end_ rb) by lia.
  destruct Hwf as (_ & He & _). apply Z.mod_small. lia.
Qed.

Lemma rewind_after_writes_witness :
  rewind_restores 8 (ring_buffer_write_chars 8 (str "1234") (empty_ring 8))
                  (str "ab").
Proof.
  apply (rewind_after_writes 8
           (ring_buffer_write_chars 8 (str "1234") (empty_ring 8)) (str "ab")).
  - vm_compute. repeat split; discriminate.
  - reflexivity.
  - lia.
  - vm_compute. discriminate.
Defined.

(** ** The value returned by [ring_buffer_rewind] *)

(** C5 (defect in the code): below the guard the function returns [len]
    without looking at what the ring holds, although its header comment
    promises the number of characters effectively removed.  With capacity
    8 and two live bytes, a rewind of 5 returns 5 and carries [end_] past
    [start] to slot 5. *)
Theorem rewind_returns_len_beyond_live :
  rb_live 8 (ring_buffer_write_chars 8 (str "ab") (empty_ring 8)) = 2 /\
  exists rb',
    ring_buffer_rewind 8 5 (ring_buffer_write_chars 8 (str "ab") (empty_ring 8))
      = Some (5, rb') /\
    start rb' = 0 /\ end_ rb' = 5 /\ rb_live 8 rb' = 5.
Proof. vm_compute. split; [reflexivity |]. eexists. repeat split; reflexivity. Qed.

(** ** The state invariant *)

(** C9, as stated, fails: the write that saturates the ring sets [full]
    and leaves [end_] one slot behind [start].  With capacity 8 and seven
    bytes live the invariant of the specification holds; after one more
    write [full] is set with [start = 0] and [end_ = 7]. *)
Lemma saturating_write_breaks_spec_invariant :
  rb_inv_spec 8 (ring_buffer_write_chars 8 (str "abcdefg") (empty_ring 8)) /\
  ~ rb_inv_spec 8
      (ring_buffer_write_char 8 "h"
         (ring_buffer_write_chars 8 (str "abcdefg") (empty_ring 8))).
Proof.
  split.
  - vm_compute. repeat split; discriminate.
  - intros (_ & _ & H). vm_compute in H. specialize (H eq_refl). discriminate.
Qed.

Lemma saturating_write (C : Z) (c : ascii) (rb : s_ring) :
  rb_wf C rb -> full rb = false -> rb_live C rb = C - 1 ->
  full (ring_buffer_write_char C c rb) = true.
Proof.
  intros (Hs & He & _) Hf Hl. unfold ring_buffer_write_char. rewrite Hf.
  assert (Heq : (end_ rb + 1) mod C = start rb).
  { unfold rb_live in Hl.
    assert (Hz : (end_ rb + 1 - start rb) mod C = 0).
    { replace (end_ rb + 1 - start rb) with (end_ rb - start rb + 1) by lia.
      rewrite <- Zplus_mod_idemp_l, Hl.
      replace (C - 1 + 1) with C by lia. apply Z_mod_same_full. }
    apply Z.mod_divide in Hz; [| lia]. destruct Hz as [q Hq].
    assert (Hq' : q = 0 \/ q = 1) by nia.
    destruct Hq' as [-> | ->].
    - replace (end_ rb + 1) with (start rb) by lia. apply Z.mod_small. lia.
    - replace (end_ rb + 1) with C by lia. rewrite Z_mod_same_full. lia. }
  destruct (Z.eqb_spec ((end_ rb + 1) mod C) (start rb)); [reflexivity | lia].
Qed.

Lemma rewind_live (C n : Z) (rb : s_ring) :
  rb_wf C rb -> C <= 65535 -> 0 <= n <= rb_live C rb ->
  exists rb',
    ring_buffer_rewind C n rb = Some (n, rb') /\
    rb_live C rb' = rb_live C rb - n.
Proof.
  intros Hwf Hmax Hn. pose proof (live_bounds C rb Hwf) as Hlb.
  destruct (rewind_lt C n rb Hwf Hmax) as (rb' & Hr & Hs & _ & He & _); [lia |].
  exists rb'. split; [exact Hr |].
  unfold rb_live in *. rewrite Hs, He, Zminus_mod_idemp_l.
  replace (end_ rb - n - start rb) with (end_ rb - start rb - n) by lia.
  rewrite <- Zminus_mod_idemp_l. apply Z.mod_small. lia.
Qed.

(** C9 (amended): from every state with [start] and [end_] in
    [0, BUF_MAX) and a storage of [BUF_MAX] slots, whatever [full] says,
    each of [ring_buffer_write_char], [print_and_reset_buffer] and
    [ring_buffer_rewind] leaves [start] and [end_] in [0, BUF_MAX) and the
    storage at its size.  [ring_buffer_write_char] also keeps that [full]
    implies [(end_ + 1) mod BUF_MAX = start] (a saturated ring has [end_]
    one slot behind [start], not on it), and a drain establishes it;
    [ring_buffer_rewind] moves [end_] without looking at [full] and does
    not keep it.  While [full] is unset the live bytes number
    [(end_ - start) mod BUF_MAX]: a write that does not saturate adds one,
    the write at [BUF_MAX - 1] live bytes sets [full], a drain leaves
    none, and a rewind of at most the live count takes that many. *)
Theorem ring_operations_preserve_invariant
    (C BUF_SIZE : Z) (rb : s_ring) (c : ascii) (n : Z) :
  rb_wf C rb -> C <= 65535 -> 0 <= n ->
  rb_wf C (ring_buffer_write_char C c rb) /\
  rb_wf C (print_and_reset_buffer C BUF_SIZE rb).2 /\
  (exists r rb', ring_buffer_rewind C n rb = Some (r, rb') /\ rb_wf C rb') /\
  (rb_inv C rb -> rb_inv C (ring_buffer_write_char C c rb)) /\
  rb_inv C (print_and_reset_buffer C BUF_SIZE rb).2 /\
  (full rb = false -> rb_live C rb < C - 1 ->
   full (ring_buffer_write_char C c rb) = false /\
   rb_live C (ring_buffer_write_char C c rb) = rb_live C rb + 1) /\
  (full rb = false -> rb_live C rb = C - 1 ->
   full (ring_buffer_write_char C c rb) = true) /\
  rb_live C (print_and_reset_buffer C BUF_SIZE rb).2 = 0 /\
  (n <= rb_live C rb ->
   exists rb', ring_buffer_rewind C n rb = Some (n, rb') /\
               rb_live C rb' = rb_live C rb - n).
Proof.
  intros Hwf Hmax Hn.
  split; [apply write_char_wf; exact Hwf |].
  split; [apply (drain_inv C BUF_SIZE rb Hwf) |].
  split; [apply rewind_wf; assumption |].
  split; [apply write_char_inv |].
  split; [apply drain_inv; exact Hwf |].
  split.
  { intros Hf Hl.
    destruct (write_char_room C c rb Hwf Hf Hl) as (_ & F & _ & _ & L). auto. }
  split; [intros Hf Hl; apply saturating_write; assumption |].
  split.
  { unfold rb_live. simpl. apply Z.mod_0_l. destruct Hwf as (Hs & _). lia. }
  intros Hle. apply rewind_live; [exact Hwf | exact Hmax | lia].
Qed.

(** A saturated ring of eight slots rewound by one has [full] set with
    [end_ = 6]: the cursors are in range although [end_] is no longer one
    slot behind [start], and from there a write, a drain and a rewind
    still leave them in range. *)
Lemma ring_operations_preserve_invariant_witness :
  exists rb1,
    ring_buffer_rewind 8 1
      (ring_buffer_write_chars 8 (str "abcdefgh") (empty_ring 8))
      = Some (1, rb1) /\
    full rb1 = true /\ end_ rb1 = 6 /\ ~ rb_inv 8 rb1 /\
    rb_wf 8 (ring_buffer_write_char 8 "x" rb1) /\
    rb_wf 8 (print_and_reset_buffer 8 9 rb1).2 /\
    exists r rb2, ring_buffer_rewind 8 2 rb1 = Some (r, rb2) /\ rb_wf 8 rb2.
Proof.
  eexists. split; [vm_compute; reflexivity |].
  split; [reflexivity |]. split; [reflexivity |].
  split.
  { intros [_ H]. specialize (H eq_refl). vm_compute in H. discriminate. }
  match goal with
  | |- rb_wf 8 (ring_buffer_write_char 8 _ ?r) /\ _ =>
      destruct (ring_operations_preserve_invariant 8 9 r "x"%char 2)
        as (Hw & Hd & Hr & _)
  end.
  - vm_compute. repeat split; discriminate.
  - lia.
  - lia.
  - split; [exact Hw |]. split; [exact Hd | exact Hr].
Defined.

(** ** Draining a saturated ring *)

(** C10, as stated, fails: a ring saturated by writes has [end_] one slot
    behind [start], so the drain finds [end_ <> start] and calls the log
    sink.  With capacity 8, eight writes into the empty ring set [full]
    with [start = 0] and [end_ = 7], and the drain sends seven bytes. *)
Lemma drain_of_saturated_ring_sends_bytes :
  full (ring_buffer_write_chars 8 (str "abcdefgh") (empty_ring 8)) = true /\
  (print_and_reset_buffer 8 9
     (ring_buffer_write_chars 8 (str "abcdefgh") (empty_ring 8))).1 = [(7, 0)] /\
  (print_and_reset_buffer 8 9
     (ring_buffer_write_chars 8 (str "abcdefgh") (empty_ring 8))).1 <> [].
Proof. split; [reflexivity | split; [reflexivity | discriminate]]. Qed.

(** C10 (amended): [print_and_reset_buffer] sends nothing exactly when
    [start = end_], whatever [full] says.  A ring saturated by writes has
    [full] set with [(end_ + 1) mod BUF_MAX = start]; for a capacity of at
    least 2 it is drained with one call for the span [[0, BUF_MAX - 1)]
    when [start = 0], else with the two calls of the wrapped case.  In all
    cases [start], [end_] and [full] are reset and the storage is cleared. *)
Theorem drain_calls_and_reset (C BUF_SIZE : Z) (rb : s_ring) :
  rb_wf C rb ->
  ((print_and_reset_buffer C BUF_SIZE rb).1 = [] <-> start rb = end_ rb) /\
  (full rb = true -> (end_ rb + 1) mod C = start rb -> 2 <= C ->
   (print_and_reset_buffer C BUF_SIZE rb).1
   = if start rb =? 0 then [(C - 1, 0)]
     else [(BUF_SIZE - start rb, start rb); (start rb - 1, 0)]) /\
  (print_and_reset_buffer C BUF_SIZE rb).2
  = {| start := 0; end_ := 0; full := false;
       buf := replicate (Z.to_nat C) NUL |}.
Proof.
  intros (Hs & He & Hl). unfold print_and_reset_buffer. cbn [fst snd].
  split; [| split].
  - destruct (Z.gtb_spec (end_ rb) (start rb)); [split; [discriminate | lia] |].
    destruct (Z.ltb_spec (end_ rb) (start rb)); [split; [discriminate | lia] |].
    split; [lia | reflexivity].
  - intros _ Hsat HC. rewrite succ_mod in Hsat by lia.
    destruct (Z.eqb_spec (end_ rb + 1) C) as [Heq | Hne].
    + rewrite <- Hsat. simpl.
      destruct (Z.gtb_spec (end_ rb) 0); [| lia].
      do 2 f_equal. lia.
    + destruct (Z.eqb_spec (start rb) 0); [lia |].
      destruct (Z.gtb_spec (end_ rb) (start rb)); [lia |].
      destruct (Z.ltb_spec (end_ rb) (start rb)); [| lia].
      do 3 f_equal. lia.
  - f_equal. apply clear_range_all. exact Hl.
Qed.

Lemma drain_calls_and_reset_witness :
  (print_and_reset_buffer 8 9
     (ring_buffer_write_chars 8 (str "abcdefgh") (empty_ring 8))).2
  = empty_ring 8.
Proof.
  apply (drain_calls_and_reset 8 9
           (ring_buffer_write_chars 8 (str "abcdefgh") (empty_ring 8))).
  vm_compute. repeat split; discriminate.
Defined.

(** ** Numeric conversions and zero padding *)


(** Decimal 123456 with zero flag and width 5 keeps its six digits. *)
Lemma numeric_directive_no_truncation :
  exists rb',
    print 64 8 (str "%05d") [Arg32 123456] (empty_ring 64) = Some (4, rb') /\
    rb_contents 64 rb' = str "123456".
Proof. vm_compute. eexists. split; reflexivity. Qed.

(** ** The pointer conversion *)

(** In the case [p] the interpreter writes ["0x"], then [size - len]
    characters ['0'] for the width held in the directive state, whatever
    the flags [attr_0len] and [attr_size] are, then the value in lowercase
    hexadecimal.  The same holds for a whole directive ['%'], optional
    zero flag with width digits, [p]. *)
Lemma pointer_directive_chars
    (C : Z) (fs : fs_properties_t) (fmt : list ascii) (base : Z)
    (flag : option (list ascii)) (w : Z) (pre rest : list ascii)
    (args : va_list) (rb : s_ring) (fuel : nat) :
  started fs = true -> fmt_at fmt (base + consumed fs) = Some "p"%char ->
  flag_ok flag -> (length (flag_text flag) + 3 <= fuel)%nat ->
  let hex := digits 16 (u32 w) in
  let len := Z.of_nat (length hex) in
  is_repr 16 (u32 w) hex /\
  fs_switch C fuel fmt base fs (Arg32 w :: args) rb
  = Some (FsEnd fs args
            (ring_buffer_write_chars C
               (str "0x" ++ replicate (Z.to_nat (size fs - len)) "0"%char
                ++ map digit_char hex) rb)) /\
  print_handle_format_string C fuel
    (pre ++ "%"%char :: flag_text flag ++ "p"%char :: rest)
    (Z.of_nat (length pre)) (Arg32 w :: args) rb
  = Some (0, Z.of_nat (length (flag_text flag)) + 2, args,
          ring_buffer_write_chars C
            (str "0x" ++ replicate (Z.to_nat (flag_width flag - len)) "0"%char
             ++ map digit_char hex) rb).
Proof.
  intros Hst Hat Hok Hfuel hex len.
  split.
  { apply number_len_digits; [lia |].
    unfold u32. pose proof (Z.mod_pos_bound w 4294967296 ltac:(lia)). lia. }
  split; [apply fs_switch_pointer; assumption |].
  unfold print_handle_format_string.
  destruct (fs_loop_reach C flag "p"%char pre rest (Arg32 w :: args) rb fuel)
    as (f & Hreach); [discriminate | exact Hok | reflexivity | exact Hfuel |].
  rewrite Hreach, fs_loop_eq.
  rewrite (fs_switch_pointer C (S f) _ (Z.of_nat (length pre)) (fs_at_conv flag)
             w args rb (fmt_at_conv flag "p"%char pre rest) eq_refl).
  rewrite bind_Some. rewrite (consumed_at_conv flag Hok). reflexivity.
Qed.

(** ** Unrecognized conversion characters *)

(** A template made of literal characters, then a directive whose
    character after ['%'] and the optional zero flag is none of those the
    switch knows: the interpreter, called on the directive, fails with 0
    in [consumed]; [print] returns -1; and the ring is the one the
    literal characters were written to, nothing taken back.  When these
    characters fit they follow the former contents of the ring. *)
Lemma unrecognized_after_literal
    (C : Z) (lit : list ascii) (flag : option (list ascii)) (c : ascii)
    (rest : list ascii) (args : va_list) (rb : s_ring) (fuel : nat) :
  Forall (fun x => x <> "%"%char /\ x <> NUL) lit ->
  ~ In c recognized -> c <> NUL -> flag_ok flag ->
  (has_flag flag = true -> is_digit c = false) ->
  (length lit + length (flag_text flag) + 4 <= fuel)%nat ->
  let fmt := lit ++ "%"%char :: flag_text flag ++ c :: rest in
  let rb1 := ring_buffer_write_chars C lit rb in
  print_handle_format_string C fuel fmt (Z.of_nat (length lit)) args rb1
    = Some (1, 0, args, rb1) /\
  print C fuel fmt args rb = Some (-1, rb1) /\
  (rb_wf C rb -> full rb = false ->
   rb_live C rb + Z.of_nat (length lit) <= C - 1 ->
   rb_contents C rb1 = rb_contents C rb ++ lit).
Proof.
  intros Hlit Hnot Hnul Hok Hdig Hfuel fmt rb1.
  split; [apply interpreter_unrecognized; try assumption; lia |]. split.
  - unfold print.
    replace fuel with (length lit + (fuel - length lit))%nat by lia.
    pose proof (print_loop_literal C lit []
                  ("%"%char :: flag_text flag ++ c :: rest) args rb
                  (fuel - length lit) Hlit) as Hpl.
    simpl app in Hpl. simpl length in Hpl. fold fmt in Hpl.
    change (Z.of_nat 0) with 0 in Hpl. rewrite Z.add_0_l in Hpl.
    rewrite Hpl. fold rb1.
    apply print_loop_unrecognized; try assumption. lia.
  - intros Hwf Hf Hroom.
    apply (write_chars_room C lit rb Hwf Hf Hroom).
Qed.

(** ** The bounded buffer-write *)

(** With a capacity of at least one, whatever [print] returned:
    [snprintf] asks [memcpy] for at most [len - 1] bytes, writes the NUL
    right after them and returns their number. *)
Lemma snprintf_bounded
    (C : Z) (fuel : nat) (len : Z) (fmt : list ascii) (args : va_list)
    (rb rb1 : s_ring) (res : Z) :
  print C fuel fmt args rb = Some (res, rb1) ->
  rb_wf C rb1 -> C <= 65535 -> 1 <= len <= 2147483648 ->
  exists n rb2,
    snprintf C fuel true len fmt args false rb
    = Some (n,
            Some {| copy_src := u32 (end_ rb1 - u32 res);
                    copy_len := n; nul_at := n |},
            false, rb2) /\
    0 <= n <= len - 1 /\
    n = (if u32 res >=? len then len - 1 else u32 res).
Proof.
  intros Hp Hwf Hmax Hlen. unfold snprintf. cbn [negb mutex_trylock].
  rewrite Hp, bind_Some. cbv beta iota.
  pose proof (Z.mod_pos_bound res 4294967296 ltac:(lia)) as Hres.
  fold (u32 res) in Hres.
  destruct (rewind_wf C (u32 res) rb1 Hwf Hmax) as (r & rb2 & Hr & _); [lia |].
  rewrite Hr, bind_Some.
  destruct (Z.geb_spec (u32 res) len) as [Hge | Hlt].
  - assert (Hu : u32 (len - 1) = len - 1) by (apply Z.mod_small; lia).
    assert (Hs : s32 (len - 1) = len - 1)
      by (unfold s32; rewrite Z.mod_small; lia).
    rewrite Hu, Hs. exists (len - 1), rb2. repeat split; lia.
  - assert (Hs : s32 (u32 res) = u32 res)
      by (unfold s32; rewrite Z.mod_small; lia).
    rewrite Hs. exists (u32 res), rb2. repeat split; lia.
Qed.

(** C4 (defect in the code): for [len = 0] the line [to_copy = len - 1]
    wraps in [size_t].  With capacity 0 and the template ["abc"],
    [snprintf] asks [memcpy] for 4294967295 bytes, writes the NUL at index
    4294967295 of the destination and returns -1. *)
Theorem snprintf_zero_capacity :
  exists rb',
    snprintf 64 8 true 0 (str "abc") [] false (empty_ring 64)
    = Some (-1,
            Some {| copy_src := 0; copy_len := 4294967295;
                    nul_at := 4294967295 |},
            false, rb').
Proof. vm_compute. eexists. reflexivity. Qed.

(** * Further properties of the ring buffer *)

Section RingBufferMore.

Variable BUF_MAX : Z.

Local Abbreviation write_char := (ring_buffer_write_char BUF_MAX).
Local Abbreviation write_chars := (ring_buffer_write_chars BUF_MAX).
Local Abbreviation wf := (rb_wf BUF_MAX).
Local Abbreviation live := (rb_live BUF_MAX).
Local Abbreviation contents := (rb_contents BUF_MAX).

Lemma write_chars_full (l : list ascii) (rb : s_ring) :
  full rb = true -> write_chars l rb = rb.
Proof.
  intros Hf. induction l as [| c l IH]; [reflexivity |].
  rewrite write_chars_cons, write_char_full by exact Hf. exact IH.
Qed.

Lemma write_chars_start (l : list ascii) :
  forall rb : s_ring, start (write_chars l rb) = start rb.
Proof.
  induction l as [| c l IH]; intros rb; [reflexivity |].
  rewrite write_chars_cons, IH. unfold ring_buffer_write_char.
  destruct (full rb); [reflexivity |].
  destruct (negb _); reflexivity.
Qed.

Lemma write_chars_inv (l : list ascii) :
  forall rb : s_ring, rb_inv BUF_MAX rb -> rb_inv BUF_MAX (write_chars l rb).
Proof.
  induction l as [| c l IH]; intros rb Hinv; [exact Hinv |].
  rewrite write_chars_cons. apply IH, write_char_inv, Hinv.
Qed.

End RingBufferMore.

(** X1.  Overflow is lossy: of a run of writes that does not fit, a ring
    that is not full keeps the first [BUF_MAX - live] characters (the last
    of them sets [full] and sits at [end_]) and ignores every later one. *)
Theorem write_chars_overflow (C : Z) (l : list ascii) (rb : s_ring) :
  rb_wf C rb -> full rb = false ->
  C - rb_live C rb <= Z.of_nat (length l) ->
  let k := Z.to_nat (C - rb_live C rb) in
  let rb' := ring_buffer_write_chars C l rb in
  rb' = ring_buffer_write_chars C (take k l) rb /\
  full rb' = true /\
  rb_contents C rb' = rb_contents C rb ++ take (k - 1) l /\
  buf rb' !! Z.to_nat (end_ rb') = l !! (k - 1)%nat.
Proof.
  intros Hwf Hf Hlen k rb'.
  pose proof (live_bounds C rb Hwf) as Hlb.
  assert (Hk : (1 <= k <= length l)%nat) by (unfold k; lia).
  destruct (l !! (k - 1)%nat) as [c |] eqn:Hc;
    [| apply lookup_ge_None in Hc; lia].
  assert (Hd : drop (k - 1) l = c :: drop k l).
  { rewrite (drop_S l c (k - 1) Hc). do 2 f_equal. lia. }
  assert (Hsplit : l = take (k - 1) l ++ c :: drop k l).
  { rewrite <- Hd. symmetry. apply take_drop. }
  assert (Htk : take k l = take (k - 1) l ++ [c]).
  { replace k with (S (k - 1)) at 1 by lia. apply take_S_r. exact Hc. }
  destruct (write_chars_room C (take (k - 1) l) rb Hwf Hf)
    as (W & S1 & F1 & L1 & E1 & C1).
  { rewrite length_take. unfold k. lia. }
  assert (Hl1 : rb_live C (ring_buffer_write_chars C (take (k - 1) l) rb) = C - 1).
  { rewrite L1, length_take. unfold k. lia. }
  pose proof (saturating_write C c _ W F1 Hl1) as Hsat.
  assert (Hall : rb' = ring_buffer_write_chars C (take k l) rb).
  { unfold rb'. rewrite Hsplit at 1. rewrite Htk, !write_chars_app.
    rewrite !write_chars_cons.
    rewrite write_chars_full by exact Hsat. reflexivity. }
  split; [exact Hall |].
  rewrite Hall, Htk, write_chars_app.
  change (ring_buffer_write_chars C [c] ?r) with (ring_buffer_write_char C c r).
  split; [exact Hsat |].
  set (r := ring_buffer_write_chars C (take (k - 1) l) rb) in *.
  assert (Hshape : ring_buffer_write_char C c r
                   = {| start := start r; end_ := end_ r; full := true;
                        buf := <[Z.to_nat (end_ r) := c]> (buf r) |}).
  { unfold ring_buffer_write_char in Hsat |- *. rewrite F1 in Hsat |- *.
    destruct (negb _); [discriminate | reflexivity]. }
  rewrite Hshape. split.
  - rewrite <- C1. unfold rb_contents, rb_live. simpl.
    apply map_ext_in. intros j Hj. apply in_seq in Hj.
    fold (rb_live C r) in Hj.
    rewrite !nth_lookup, list_lookup_insert_ne; [reflexivity |].
    intros Heq. apply Z2Nat.inj in Heq.
    + rewrite <- (live_end C r W) in Heq.
      apply (shift_mod_inj C) in Heq; lia.
    + destruct W as (_ & He & _). lia.
    + apply Z.mod_pos_bound. lia.
  - simpl. apply list_lookup_insert_eq.
    destruct W as (_ & He & Hl). lia.
Qed.

Lemma write_chars_overflow_witness :
  ring_buffer_write_chars 4 (str "abcdefgh") (empty_ring 4)
  = ring_buffer_write_chars 4 (str "abcd") (empty_ring 4).
Proof.
  apply (write_chars_overflow 4 (str "abcdefgh") (empty_ring 4)).
  - vm_compute. repeat split; discriminate.
  - reflexivity.
  - vm_compute. discriminate.
Defined.

(** ** What a rewind leaves in the storage *)

Section RewindStorage.

Variable BUF_MAX : Z.

Lemma clear_range_step (lo hi : Z) (b : list ascii) :
  0 <= lo < hi ->
  clear_range lo hi b = clear_range (lo + 1) hi (<[Z.to_nat lo := NUL]> b).
Proof.
  intros H. unfold clear_range.
  replace (Z.to_nat (hi - lo)) with (S (Z.to_nat (hi - (lo + 1)))) by lia.
  replace (Z.to_nat (lo + 1)) with (S (Z.to_nat lo)) by lia.
  reflexivity.
Qed.

Lemma clear_range_empty (lo hi : Z) (b : list ascii) :
  hi <= lo -> clear_range lo hi b = b.
Proof.
  intros H. unfold clear_range.
  replace (Z.to_nat (hi - lo)) with 0%nat by lia. reflexivity.
Qed.

(** The 16-bit loop clears the range it is given. *)
Lemma clear_loop16_range (fuel : nat) :
  forall (i hi : Z) (b : list ascii),
    0 <= i -> hi <= 65535 -> (Z.to_nat (hi - i) <= fuel)%nat ->
    clear_loop16 fuel i hi b = Some (clear_range i hi b).
Proof.
  induction fuel as [| f IH]; intros i hi b Hi Hhi Hf; simpl.
  - destruct (Z.ltb_spec i hi); [lia |].
    rewrite clear_range_empty by lia. reflexivity.
  - destruct (Z.ltb_spec i hi) as [Hlt | Hge].
    + assert (Hu : u16 (i + 1) = i + 1) by (apply Z.mod_small; lia).
      rewrite Hu, IH by lia. rewrite <- clear_range_step by lia. reflexivity.
    + rewrite clear_range_empty by lia. reflexivity.
Qed.

Lemma clear_range_hit (lo hi : Z) (b : list ascii) (p : nat) :
  0 <= lo -> lo <= Z.of_nat p < hi -> (p < length b)%nat ->
  clear_range lo hi b !! p = Some NUL.
Proof.
  intros Hlo Hp Hlen. unfold clear_range.
  apply fold_insert_hit; [| exact Hlen]. apply in_seq. lia.
Qed.

Lemma clear_range_other (lo hi : Z) (b : list ascii) (p : nat) :
  0 <= lo -> ~ (lo <= Z.of_nat p < hi) ->
  clear_range lo hi b !! p = b !! p.
Proof.
  intros Hlo Hp. unfold clear_range.
  apply fold_insert_other. rewrite in_seq. lia.
Qed.

Lemma sub_mod_cases (p e : Z) :
  0 <= p < BUF_MAX -> 0 <= e < BUF_MAX ->
  (p - e) mod BUF_MAX = if p >=? e then p - e else p - e + BUF_MAX.
Proof.
  intros Hp He. destruct (Z.geb_spec p e).
  - apply Z.mod_small. lia.
  - rewrite <- (Z_mod_plus_full (p - e) 1 BUF_MAX).
    rewrite Z.mod_small by lia. lia.
Qed.

(** Writes that fit leave every slot outside their span as it was. *)
Lemma write_chars_frame (l : list ascii) :
  forall (rb : s_ring) (p : Z),
    rb_wf BUF_MAX rb -> full rb = false ->
    rb_live BUF_MAX rb + Z.of_nat (length l) <= BUF_MAX - 1 ->
    0 <= p < BUF_MAX ->
    in_span BUF_MAX (end_ rb) (Z.of_nat (length l)) p = false ->
    buf (ring_buffer_write_chars BUF_MAX l rb) !! Z.to_nat p
    = buf rb !! Z.to_nat p.
Proof.
  induction l as [| c l IH]; intros rb p Hwf Hf Hroom Hp Hspan;
    [reflexivity |].
  rewrite write_chars_cons. simpl length in Hroom, Hspan.
  assert (Hlt : rb_live BUF_MAX rb < BUF_MAX - 1) by lia.
  destruct (write_char_room BUF_MAX c rb Hwf Hf Hlt) as (Hs & Hf' & He & Hb & Hl).
  pose proof (write_char_wf BUF_MAX c rb Hwf) as Hwf'.
  pose proof Hwf as (_ & Hend & _).
  unfold in_span in Hspan. apply Z.ltb_ge in Hspan.
  rewrite (sub_mod_cases p (end_ rb) Hp Hend) in Hspan.
  rewrite IH; try assumption.
  - rewrite Hb. apply list_lookup_insert_ne.
    intros Heq. apply Z2Nat.inj in Heq; [| lia | lia]. subst p.
    destruct (Z.geb_spec (end_ rb) (end_ rb)); lia.
  - rewrite Hl. lia.
  - unfold in_span. apply Z.ltb_ge. rewrite He.
    pose proof Hwf' as (_ & Hend' & _). rewrite He in Hend'.
    rewrite (sub_mod_cases p _ Hp Hend').
    rewrite succ_mod in * by lia.
    destruct (Z.eqb_spec (end_ rb + 1) BUF_MAX);
      destruct (Z.geb_spec p (end_ rb));
      match goal with |- context [?a >=? ?b] => destruct (Z.geb_spec a b) end;
      lia.
Qed.

End RewindStorage.

Lemma rewind_written_span (C : Z) (rb : s_ring) (l : list ascii) :
  rb_wf C rb -> full rb = false -> C <= 65535 ->
  rb_live C rb + Z.of_nat (length l) <= C - 1 ->
  exists rb',
    ring_buffer_rewind C (Z.of_nat (length l)) (ring_buffer_write_chars C l rb)
      = Some (Z.of_nat (length l), rb') /\
    rb_contents C rb' = rb_contents C rb /\
    forall p : Z,
      0 <= p < C ->
      buf rb' !! Z.to_nat p
      = if in_span C (end_ rb) (Z.of_nat (length l)) p then Some NUL
        else buf rb !! Z.to_nat p.
Proof.
  intros Hwf Hf Hmax Hroom.
  destruct (write_chars_room C l rb Hwf Hf Hroom) as (W & S1 & F1 & L1 & E1 & _).
  pose proof (live_bounds C rb Hwf) as Hlb.
  set (n := Z.of_nat (length l)) in *.
  set (rb1 := ring_buffer_write_chars C l rb) in *.
  pose proof Hwf as (Hs & He & Hlen). pose proof W as (_ & He1 & Hlen1).
  assert (Hframe : forall p, 0 <= p < C -> in_span C (end_ rb) n p = false ->
                             buf rb1 !! Z.to_nat p = buf rb !! Z.to_nat p).
  { intros p Hp Hsp. apply write_chars_frame; assumption. }
  assert (Hstore : exists rb',
             ring_buffer_rewind C n rb1 = Some (n, rb') /\
             start rb' = start rb /\ end_ rb' = end_ rb /\
             forall p : Z, 0 <= p < C ->
               buf rb' !! Z.to_nat p
               = if in_span C (end_ rb) n p then Some NUL
                 else buf rb !! Z.to_nat p).
  { unfold ring_buffer_rewind.
    destruct (Z.geb_spec n C); [lia |].
    assert (Hcase : (end_ rb + n < C /\ end_ rb1 = end_ rb + n) \/
                    (C <= end_ rb + n /\ end_ rb1 = end_ rb + n - C)).
    { rewrite E1. destruct (Z_lt_ge_dec (end_ rb + n) C).
      - left. split; [lia |]. apply Z.mod_small. lia.
      - right. split; [lia |].
        rewrite <- (Z_mod_plus_full (end_ rb + n) (-1) C).
        rewrite Z.mod_small by lia. lia. }
    destruct Hcase as [[Hfit Ee] | [Hwrap Ee]].
    - destruct (Z.geb_spec (end_ rb1) n); [| lia].
      assert (Hu : u16 (end_ rb1 - n) = end_ rb1 - n) by (apply Z.mod_small; lia).
      rewrite Hu, clear_loop16_range by (unfold fuel16; lia).
      rewrite bind_Some. eexists. split; [reflexivity |]. simpl.
      split; [exact S1 |]. split; [lia |].
      intros p Hp. unfold in_span. rewrite (sub_mod_cases C p (end_ rb) Hp He).
      destruct (Z.geb_spec p (end_ rb)); destruct (Z.ltb_spec (p - end_ rb) n).
      + apply clear_range_hit; lia.
      + rewrite clear_range_other by lia. apply Hframe; [exact Hp |].
        unfold in_span. rewrite (sub_mod_cases C p (end_ rb) Hp He).
        destruct (Z.geb_spec p (end_ rb)); lia.
      + destruct (Z.ltb_spec (p - end_ rb + C) n); [lia |].
        rewrite clear_range_other by lia. apply Hframe; [exact Hp |].
        unfold in_span. rewrite (sub_mod_cases C p (end_ rb) Hp He).
        destruct (Z.geb_spec p (end_ rb)); lia.
      + destruct (Z.ltb_spec (p - end_ rb + C) n); [lia |].
        rewrite clear_range_other by lia. apply Hframe; [exact Hp |].
        unfold in_span. rewrite (sub_mod_cases C p (end_ rb) Hp He).
        destruct (Z.geb_spec p (end_ rb)); lia.
    - destruct (Z.geb_spec (end_ rb1) n); [lia |].
      rewrite clear_loop16_range by (unfold fuel16; lia).
      rewrite bind_Some.
      assert (Hu : u16 (C - n + end_ rb1) = C - n + end_ rb1)
        by (apply Z.mod_small; lia).
      rewrite Hu, clear_loop16_range by (unfold fuel16; lia).
      rewrite bind_Some. eexists. split; [reflexivity |]. simpl.
      split; [exact S1 |]. split; [lia |].
      intros p Hp. unfold in_span. rewrite (sub_mod_cases C p (end_ rb) Hp He).
      destruct (Z.geb_spec p (end_ rb)).
      + destruct (Z.ltb_spec (p - end_ rb) n); [| lia].
        apply clear_range_hit; [lia | lia |].
        rewrite clear_range_length. lia.
      + destruct (Z.ltb_spec (p - end_ rb + C) n).
        * rewrite clear_range_other by lia. apply clear_range_hit; lia.
        * rewrite !clear_range_other by lia. apply Hframe; [exact Hp |].
          unfold in_span. rewrite (sub_mod_cases C p (end_ rb) Hp He).
          destruct (Z.geb_spec p (end_ rb)); lia. }
  destruct Hstore as (rb' & Hr & Hs' & He' & Hbuf).
  exists rb'. split; [exact Hr |]. split; [| exact Hbuf].
  unfold rb_contents, rb_live. rewrite Hs', He'.
  apply map_ext_in. intros k Hk. apply in_seq in Hk.
  fold (rb_live C rb) in Hk.
  assert (Hp : 0 <= (start rb + Z.of_nat k) mod C < C)
    by (apply Z.mod_pos_bound; lia).
  rewrite !nth_lookup, (Hbuf _ Hp).
  replace (in_span C (end_ rb) n ((start rb + Z.of_nat k) mod C)) with false;
    [reflexivity |].
  symmetry. unfold in_span. apply Z.ltb_ge.
  rewrite Zminus_mod_idemp_l.
  rewrite <- (live_end C rb Hwf) at 1.
  rewrite Zminus_mod_idemp_r.
  replace (start rb + Z.of_nat k - (start rb + rb_live C rb))
    with (Z.of_nat k - rb_live C rb + C + (-1) * C) by lia.
  rewrite Z.mod_add by lia. rewrite Z.mod_small; lia.
Qed.

(** X2.  Writing characters that fit and rewinding by their number leaves the
    live contents as they were, and the slots the characters went
    through hold NUL afterwards; every other slot keeps its byte. *)
Theorem rewind_clears_written_span (C : Z) (rb : s_ring) (l : list ascii) :
  rb_wf C rb -> full rb = false -> C <= 65535 ->
  rb_live C rb + Z.of_nat (length l) <= C - 1 ->
  exists rb',
    ring_buffer_rewind C (Z.of_nat (length l)) (ring_buffer_write_chars C l rb)
      = Some (Z.of_nat (length l), rb') /\
    rb_contents C rb' = rb_contents C rb /\
    forall p : Z,
      0 <= p < C ->
      buf rb' !! Z.to_nat p
      = if in_span C (end_ rb) (Z.of_nat (length l)) p then Some NUL
        else buf rb !! Z.to_nat p.
Proof. apply rewind_written_span. Qed.

Lemma rewind_clears_written_span_witness :
  exists rb',
    ring_buffer_rewind 8 2
      (ring_buffer_write_chars 8 (str "ab")
         (ring_buffer_write_chars 8 (str "1234") (empty_ring 8)))
      = Some (2, rb') /\
    rb_contents 8 rb' = str "1234".
Proof.
  destruct (rewind_clears_written_span 8
              (ring_buffer_write_chars 8 (str "1234") (empty_ring 8)) (str "ab"))
    as (rb' & Hr & Hc & _).
  - vm_compute. repeat split; discriminate.
  - reflexivity.
  - lia.
  - vm_compute. discriminate.
  - exists rb'. split; [exact Hr | exact Hc].
Defined.

(** ** What a drain sends *)

Lemma map_seq_shift {A : Type} (n : nat) :
  forall (f : nat -> A) (a : nat),
    map f (seq a n) = map (fun j => f (a + j)%nat) (seq 0 n).
Proof.
  induction n as [| n IH]; intros f a; [reflexivity |].
  simpl. rewrite Nat.add_0_r. f_equal.
  rewrite (IH f (S a)), (IH (fun j => f (a + j)%nat) 1%nat).
  apply map_ext. intros j. f_equal. lia.
Qed.

Lemma take_drop_nth (b : list ascii) (n : nat) :
  forall s : nat,
    (s + n <= length b)%nat ->
    take n (drop s b) = map (fun k => nth (s + k) b NUL) (seq 0 n).
Proof.
  induction n as [| n IH]; intros s Hlen; [reflexivity |].
  destruct (b !! s) as [x |] eqn:Hx; [| apply lookup_ge_None in Hx; lia].
  rewrite (drop_S b x s Hx). simpl. rewrite Nat.add_0_r. f_equal.
  - rewrite nth_lookup, Hx. reflexivity.
  - rewrite IH by lia. rewrite (map_seq_shift n _ 1%nat).
    apply map_ext. intros j. f_equal. lia.
Qed.

Lemma drain_bytes (C BUF_SIZE : Z) (rb : s_ring) :
  rb_wf C rb -> full rb = false ->
  start rb <= end_ rb \/ BUF_SIZE = C ->
  (length (print_and_reset_buffer C BUF_SIZE rb).1 <= 2)%nat /\
  concat (map snd (logged (buf rb) (print_and_reset_buffer C BUF_SIZE rb).1))
  = rb_contents C rb.
Proof.
  intros (Hs & He & Hl) Hf Hcase. unfold print_and_reset_buffer. cbn [fst].
  unfold rb_contents, rb_live.
  destruct (Z.gtb_spec (end_ rb) (start rb)) as [Hgt | Hle].
  - split; [simpl; lia |]. simpl. rewrite app_nil_r. unfold sys_log_bytes.
    cbn [fst snd]. rewrite Z.mod_small by lia.
    rewrite take_drop_nth by lia.
    apply map_ext_in. intros k Hk. apply in_seq in Hk.
    f_equal. rewrite Z.mod_small by lia. lia.
  - destruct (Z.ltb_spec (end_ rb) (start rb)) as [Hlt | Hge].
    + destruct Hcase as [Hc | ->]; [lia |].
      split; [simpl; lia |]. simpl. rewrite app_nil_r. unfold sys_log_bytes.
      cbn [fst snd].
      rewrite <- (Z_mod_plus_full (end_ rb - start rb) 1 C).
      rewrite Z.mod_small by lia.
      replace (Z.to_nat (end_ rb - start rb + 1 * C))
        with (Z.to_nat (C - start rb) + Z.to_nat (end_ rb))%nat by lia.
      rewrite seq_app, map_app. f_equal.
      * rewrite take_drop_nth by lia.
        apply map_ext_in. intros k Hk. apply in_seq in Hk.
        f_equal. rewrite Z.mod_small by lia. lia.
      * change (Z.to_nat 0) with 0%nat. rewrite take_drop_nth by lia.
        rewrite (map_seq_shift (Z.to_nat (end_ rb)) _ (Z.to_nat (C - start rb))).
        apply map_ext_in. intros k Hk. apply in_seq in Hk.
        f_equal.
        rewrite <- (Z_mod_plus_full _ (-1) C). rewrite Z.mod_small by lia. lia.
    + split; [simpl; lia |].
      replace (end_ rb - start rb) with 0 by lia.
      rewrite Z.mod_0_l by lia. reflexivity.
Qed.

(** X3.  A drain makes at most two calls to the log sink.  On a ring that is
    not full they carry exactly the live bytes, oldest first: always when
    the live span does not wrap, and in the wrapped case when the two
    constants [BUF_SIZE] and [BUF_MAX] agree (the first call asks for
    [BUF_SIZE - start] bytes from [start]). *)
Theorem drain_sends_contents (C BUF_SIZE : Z) (rb : s_ring) :
  rb_wf C rb -> full rb = false ->
  start rb <= end_ rb \/ BUF_SIZE = C ->
  (length (print_and_reset_buffer C BUF_SIZE rb).1 <= 2)%nat /\
  concat (map snd (logged (buf rb) (print_and_reset_buffer C BUF_SIZE rb).1))
  = rb_contents C rb.
Proof. apply drain_bytes. Qed.

Lemma drain_sends_contents_witness :
  concat (map snd
    (logged
       (buf (ring_buffer_write_chars 8 (str "hello") (empty_ring 8)))
       (print_and_reset_buffer 8 8
          (ring_buffer_write_chars 8 (str "hello") (empty_ring 8))).1))
  = str "hello".
Proof.
  apply (drain_sends_contents 8 8
           (ring_buffer_write_chars 8 (str "hello") (empty_ring 8))).
  - vm_compute. repeat split; discriminate.
  - reflexivity.
  - left. vm_compute. discriminate.
Defined.

(** * Further properties of the interpreter and the print driver *)

Section InterpreterMore.

Variable BUF_MAX : Z.

Local Abbreviation write_char := (ring_buffer_write_char BUF_MAX).
Local Abbreviation write_chars := (ring_buffer_write_chars BUF_MAX).

Lemma fmt_at_end (l : list ascii) : fmt_at l (Z.of_nat (length l)) = Some NUL.
Proof.
  unfold fmt_at. destruct (Z.ltb_spec (Z.of_nat (length l)) 0); [lia |].
  rewrite Z.ltb_irrefl, Z.eqb_refl. reflexivity.
Qed.





(** *** Strings *)


Lemma write_string_loop_chars (s : list ascii) :
  forall (n : nat) (rb : s_ring),
    write_string_loop BUF_MAX s n rb = write_chars (take n (until_nul s)) rb.
Proof.
  induction s as [| c s IH]; intros n rb.
  - destruct n; reflexivity.
  - destruct n as [| n]; [reflexivity |]. simpl.
    destruct (Ascii.eqb c NUL); [reflexivity |].
    simpl. apply IH.
Qed.

End InterpreterMore.

(** X4.  A template without ['%']: [print] writes it as it is and returns its
    length. *)
Theorem print_literal_template
    (C : Z) (fmt : list ascii) (args : va_list) (rb : s_ring) (fuel : nat) :
  Forall (fun c => c <> "%"%char /\ c <> NUL) fmt ->
  (length fmt < fuel)%nat ->
  print C fuel fmt args rb
  = Some (Z.of_nat (length fmt), ring_buffer_write_chars C fmt rb).
Proof.
  intros Hlit Hfuel. unfold print.
  replace fuel with (length fmt + (fuel - length fmt))%nat by lia.
  pose proof (print_loop_literal C fmt [] [] args rb (fuel - length fmt) Hlit) as H.
  simpl app in H. rewrite app_nil_r in H. simpl length in H.
  change (Z.of_nat 0) with 0 in H. rewrite Z.add_0_l in H. rewrite H.
  destruct (fuel - length fmt)%nat as [| f] eqn:Hf; [lia |].
  rewrite print_loop_eq, fmt_at_end, bind_Some. reflexivity.
Qed.

Lemma print_literal_template_witness :
  print 64 8 (str "hello") [] (empty_ring 64)
  = Some (5, ring_buffer_write_chars 64 (str "hello") (empty_ring 64)).
Proof.
  apply (print_literal_template 64 (str "hello") [] (empty_ring 64) 8).
  - repeat constructor; discriminate.
  - simpl. lia.
Defined.





(** ** Strings and characters *)

(** X7.  [ring_buffer_write_string] writes the characters of the string up to
    its first NUL, at most [len] of them, and nothing for a null
    pointer. *)
Theorem write_string_chars (C : Z) (s : option (list ascii)) (len : Z)
    (rb : s_ring) :
  ring_buffer_write_string C s len rb
  = match s with
    | None => rb
    | Some cs => ring_buffer_write_chars C (take (Z.to_nat len) (until_nul cs)) rb
    end.
Proof.
  destruct s as [cs |]; [| reflexivity]. apply write_string_loop_chars.
Qed.







(** ** Length modifiers *)












(** ** The ring is written through [ring_buffer_write_char] only *)

Section WritesOnly.

Variable BUF_MAX : Z.

Local Abbreviation write_char := (ring_buffer_write_char BUF_MAX).
Local Abbreviation write_chars := (ring_buffer_write_chars BUF_MAX).

Lemma ext_refl (rb : s_ring) : exists l, rb = write_chars l rb.
Proof. exists []. reflexivity. Qed.

Lemma ext_trans (rb1 rb2 rb3 : s_ring) :
  (exists l, rb2 = write_chars l rb1) ->
  (exists l, rb3 = write_chars l rb2) ->
  exists l, rb3 = write_chars l rb1.
Proof.
  intros [l1 ->] [l2 ->]. exists (l1 ++ l2).
  rewrite write_chars_app. reflexivity.
Qed.

Lemma ext_write_char (c : ascii) (rb : s_ring) :
  exists l, write_char c rb = write_chars l rb.
Proof. exists [c]. reflexivity. Qed.

Lemma ext_write_digits (ds : list Z) :
  forall rb : s_ring,
    exists l,
      fold_left (fun r d => ring_buffer_write_digit BUF_MAX d r) ds rb
      = write_chars l rb.
Proof.
  induction ds as [| d ds IH]; intros rb; [apply ext_refl |].
  simpl. eapply ext_trans; [| apply IH].
  unfold ring_buffer_write_digit.
  destruct (d <? 10); [apply ext_write_char |].
  destruct (d <=? 15); [apply ext_write_char | apply ext_refl].
Qed.

Lemma ext_write_number (v base : Z) (rb rb' : s_ring) :
  ring_buffer_write_number BUF_MAX v base rb = Some rb' ->
  exists l, rb' = write_chars l rb.
Proof.
  unfold ring_buffer_write_number. intros H.
  destruct (number_cells 63 v base []) as [ds |]; [| discriminate].
  rewrite bind_Some in H. inversion H. apply ext_write_digits.
Qed.

Lemma ext_pad_zero (len sz : Z) (rb : s_ring) :
  exists l, pad_zero BUF_MAX len sz rb = write_chars l rb.
Proof. rewrite pad_zero_chars. eexists. reflexivity. Qed.

Lemma ext_emit_number (pad : bool) (fs : fs_properties_t) (v base : Z)
    (rb rb' : s_ring) :
  emit_number BUF_MAX pad fs v base rb = Some rb' ->
  exists l, rb' = write_chars l rb.
Proof.
  unfold emit_number. intros H.
  destruct (get_number_len v base) as [len |]; [| discriminate].
  rewrite bind_Some in H. apply ext_write_number in H.
  destruct pad; [| exact H].
  eapply ext_trans; [apply ext_pad_zero | exact H].
Qed.

Lemma ext_write_string (s : option (list ascii)) (len : Z) (rb : s_ring) :
  exists l, ring_buffer_write_string BUF_MAX s len rb = write_chars l rb.
Proof.
  destruct s as [cs |]; [| apply ext_refl]. simpl.
  rewrite write_string_loop_chars. eexists. reflexivity.
Qed.

(** Ring carried by the outcome of one round of the interpreter. *)
Lemma fs_switch_ext (fuel : nat) (fmt : list ascii) (base : Z)
    (fs : fs_properties_t) (args : va_list) (rb : s_ring) (o : fs_outcome) :
  fs_switch BUF_MAX fuel fmt base fs args rb = Some o ->
  exists l,
    match o with
    | FsBreak _ _ rb' | FsEnd _ _ rb' | FsErr _ rb' => rb' = write_chars l rb
    end.
Proof.
  unfold fs_switch. intros H.
  destruct (fmt_at fmt (base + consumed fs)) as [c |]; [| discriminate].
  rewrite bind_Some in H.
  repeat match type of H with
         | (if ?b then _ else _) = Some _ => destruct b
         | (?m ≫= _) = Some _ =>
             let E := fresh "E" in
             destruct m as [? |] eqn:E;
             [rewrite bind_Some in H; cbv beta iota in H | discriminate H]
         | (match ?p with _ => _ end) = Some _ => destruct p
         end;
    inversion H; subst; clear H;
    try (apply ext_refl);
    try (apply ext_write_char);
    try (eapply ext_emit_number; eassumption);
    try (apply ext_write_string);
    try (rewrite write_string_loop_chars; eexists; reflexivity).
  eapply ext_trans; [| eapply ext_write_number; eassumption].
  eapply ext_trans; [apply ext_write_string | apply ext_pad_zero].
Qed.

Lemma fs_loop_ext (fuel : nat) :
  forall (fmt : list ascii) (base : Z) (fs : fs_properties_t)
         (args args' : va_list) (rb rb' : s_ring) (status n : Z),
    fs_loop BUF_MAX fuel fmt base fs args rb = Some (status, n, args', rb') ->
    exists l, rb' = write_chars l rb.
Proof.
  induction fuel as [| f IH]; intros fmt base fs args args' rb rb' status n H;
    [discriminate |].
  rewrite fs_loop_eq in H.
  destruct (fs_switch BUF_MAX (S f) fmt base fs args rb) as [o |] eqn:Hsw;
    [| discriminate].
  rewrite bind_Some in H. apply fs_switch_ext in Hsw.
  destruct o as [fs1 args1 rb1 | fs1 args1 rb1 | args1 rb1].
  - destruct (fmt_at fmt (base + consumed (incr_consumed fs1))) as [c |];
      [| discriminate].
    rewrite bind_Some in H. destruct (Ascii.eqb c NUL).
    + inversion H; subst. exact Hsw.
    + eapply ext_trans; [exact Hsw | eapply IH; exact H].
  - inversion H; subst. exact Hsw.
  - inversion H; subst. exact Hsw.
Qed.

Lemma print_loop_ext (fuel : nat) :
  forall (fmt : list ascii) (i : Z) (args : va_list) (rb rb' : s_ring) (r : Z),
    print_loop BUF_MAX fuel fmt i args rb = Some (r, rb') ->
    exists l, rb' = write_chars l rb.
Proof.
  induction fuel as [| f IH]; intros fmt i args rb rb' r H; [discriminate |].
  rewrite print_loop_eq in H.
  destruct (fmt_at fmt i) as [c |]; [| discriminate].
  rewrite bind_Some in H.
  destruct (Ascii.eqb c NUL); [inversion H; subst; apply ext_refl |].
  destruct (Ascii.eqb c "%").
  - destruct (print_handle_format_string BUF_MAX (S f) fmt i args rb)
      as [[[[status n] args1] rb1] |] eqn:Hh; [| discriminate].
    rewrite bind_Some in H. apply fs_loop_ext in Hh.
    destruct (negb (status =? 0)).
    + inversion H; subst. exact Hh.
    + eapply ext_trans; [exact Hh | eapply IH; exact H].
  - eapply ext_trans; [apply ext_write_char | eapply IH; exact H].
Qed.

End WritesOnly.

(** X12.  Whatever the template and the arguments, [print] changes the ring
    only by a sequence of [ring_buffer_write_char] calls: it never moves
    [start], it keeps the ring invariant and the size of the storage,
    and on a ring that is already full it changes nothing at all. *)
Theorem print_writes_only
    (C : Z) (fuel : nat) (fmt : list ascii) (args : va_list)
    (rb rb' : s_ring) (r : Z) :
  print C fuel fmt args rb = Some (r, rb') ->
  (exists l, rb' = ring_buffer_write_chars C l rb) /\
  start rb' = start rb /\
  (rb_inv C rb -> rb_inv C rb') /\
  (full rb = true -> rb' = rb).
Proof.
  intros H. apply print_loop_ext in H. destruct H as [l ->].
  split; [eexists; reflexivity |].
  split; [apply write_chars_start |].
  split; [apply write_chars_inv |].
  apply write_chars_full.
Qed.

Lemma print_writes_only_witness :
  start (ring_buffer_write_chars 64 (str "00042") (empty_ring 64)) = 0.
Proof.
  apply (print_writes_only 64 8 (str "%05d") [Arg32 42] (empty_ring 64)
           (ring_buffer_write_chars 64 (str "00042") (empty_ring 64)) 4).
  vm_compute. reflexivity.
Defined.

(** * The public entry points *)

Lemma empty_ring_wf (C : Z) : 0 < C -> rb_wf C (empty_ring C).
Proof.
  intros H. unfold rb_wf, empty_ring. simpl. rewrite length_replicate.
  repeat split; lia.
Qed.

Lemma empty_ring_live (C : Z) : 0 < C -> rb_live C (empty_ring C) = 0.
Proof. intros H. unfold rb_live. simpl. apply Z.mod_0_l. lia. Qed.

Lemma drain_resets (C BUF_SIZE : Z) (rb : s_ring) :
  rb_wf C rb -> (print_and_reset_buffer C BUF_SIZE rb).2 = empty_ring C.
Proof.
  intros (_ & _ & Hl). unfold print_and_reset_buffer, empty_ring. simpl.
  f_equal. apply clear_range_all. exact Hl.
Qed.

(** The bytes of a run of writes that fits, read back from the storage
    at the slot the run started from, when the run ends before the last
    slot is passed. *)
Lemma written_span_bytes (C : Z) (rb : s_ring) (l : list ascii) :
  rb_wf C rb -> full rb = false ->
  rb_live C rb + Z.of_nat (length l) <= C - 1 ->
  end_ rb + Z.of_nat (length l) <= C ->
  take (length l) (drop (Z.to_nat (end_ rb)) (buf (ring_buffer_write_chars C l rb)))
  = l.
Proof.
  intros Hwf Hf Hroom Hfit.
  destruct (write_chars_room C l rb Hwf Hf Hroom) as (W & S1 & F1 & L1 & E1 & C1).
  pose proof (live_bounds C rb Hwf) as Hlb.
  pose proof (live_end C rb Hwf) as Hend.
  pose proof Hwf as (Hs & He & Hlen). pose proof W as (_ & _ & Hlen1).
  set (rb1 := ring_buffer_write_chars C l rb) in *.
  rewrite take_drop_nth by lia.
  unfold rb_contents in C1. rewrite L1, S1 in C1.
  replace (Z.to_nat (rb_live C rb + Z.of_nat (length l)))
    with (Z.to_nat (rb_live C rb) + length l)%nat in C1 by lia.
  rewrite seq_app, map_app in C1.
  apply app_inj_1 in C1; [| rewrite !length_map, !length_seq; reflexivity].
  destruct C1 as [_ C1]. etransitivity; [| exact C1].
  rewrite (map_seq_shift (length l) _ (0 + Z.to_nat (rb_live C rb))).
  apply map_ext_in. intros j Hj. apply in_seq in Hj. f_equal.
  replace (start rb + Z.of_nat (0 + Z.to_nat (rb_live C rb) + j))
    with (start rb + rb_live C rb + Z.of_nat j) by lia.
  rewrite <- Zplus_mod_idemp_l, Hend. rewrite Z.mod_small by lia. lia.
Qed.

(** X13.  [printf] with the lock free: what was pending in the ring goes to
    the log first, then the output of this call, in one [sys_log] call
    when it fits in [BUF_MAX - 1] characters; the ring is left empty and
    the lock free, and the value of [print] is returned. *)
Theorem printf_sends_output
    (C BUF_SIZE : Z) (fuel : nat) (fmt : list ascii) (args : va_list)
    (rb : s_ring) (res : Z) (l : list ascii) :
  rb_wf C rb ->
  print C fuel fmt args (empty_ring C)
    = Some (res, ring_buffer_write_chars C l (empty_ring C)) ->
  Z.of_nat (length l) <= C - 1 ->
  printf C BUF_SIZE fuel fmt args false rb
  = Some (res,
          logged (buf rb) (print_and_reset_buffer C BUF_SIZE rb).1
          ++ match l with
             | [] => []
             | _ => [(Z.of_nat (length l), l)]
             end,
          false, empty_ring C).
Proof.
  intros Hwf Hp Hlen. pose proof Hwf as (Hs & _).
  assert (HC : 0 < C) by lia.
  pose proof (empty_ring_wf C HC) as Hwe.
  pose proof (empty_ring_live C HC) as Hle.
  destruct (write_chars_room C l (empty_ring C) Hwe eq_refl)
    as (W & S1 & F1 & L1 & E1 & C1); [rewrite Hle; lia |].
  pose proof (written_span_bytes C (empty_ring C) l Hwe eq_refl) as Hbytes.
  rewrite Hle in Hbytes. specialize (Hbytes ltac:(lia)).
  simpl end_ in Hbytes, E1. specialize (Hbytes ltac:(lia)).
  rewrite Z.add_0_l in E1.
  unfold printf. cbn [mutex_lock]. rewrite bind_Some.
  pose proof (drain_resets C BUF_SIZE rb Hwf) as Hd1.
  destruct (print_and_reset_buffer C BUF_SIZE rb) as [calls1 rb1] eqn:Ed1.
  cbn [fst snd] in Hd1 |- *. subst rb1.
  rewrite Hp, bind_Some. cbv beta iota.
  set (rb2 := ring_buffer_write_chars C l (empty_ring C)) in *.
  pose proof (drain_resets C BUF_SIZE rb2 W) as Hd2.
  unfold print_and_reset_buffer in Hd2 |- *. cbn [fst snd] in Hd2 |- *.
  rewrite Hd2. unfold mutex_unlock. do 3 f_equal.
  rewrite S1, E1. simpl start.
  destruct l as [| c l'].
  - simpl. reflexivity.
  - rewrite Z.mod_small by (simpl length in *; lia).
    destruct (Z.gtb_spec (Z.of_nat (length (c :: l'))) 0);
      [| simpl length in *; lia].
    unfold logged, sys_log_bytes. simpl map. cbn [fst snd].
    rewrite Z.sub_0_r, Nat2Z.id. change (Z.to_nat 0) with 0%nat in *.
    simpl length in *. rewrite Hbytes. reflexivity.
Qed.

Lemma printf_sends_output_witness :
  printf 64 64 8 (str "%05d") [Arg32 42] false
         (ring_buffer_write_chars 64 (str "old") (empty_ring 64))
  = Some (4, [(3, str "old"); (5, str "00042")], false, empty_ring 64).
Proof.
  apply (printf_sends_output 64 64 8 (str "%05d") [Arg32 42]
           (ring_buffer_write_chars 64 (str "old") (empty_ring 64))
           4 (str "00042")).
  - vm_compute. repeat split; discriminate.
  - vm_compute. reflexivity.
  - simpl. lia.
Defined.

(** ** The buffer-returning variants *)

(** Index handed to [memcpy] after a run of writes that fits: the slot the
    run started from, unless the run reached the last slot of the array,
    in which case [end - sizew] wraps around in 32 bits. *)
Lemma copy_src_value (C : Z) (rb : s_ring) (l : list ascii) :
  rb_wf C rb -> full rb = false -> C <= 65535 ->
  rb_live C rb + Z.of_nat (length l) <= C - 1 ->
  u32 (end_ (ring_buffer_write_chars C l rb) - Z.of_nat (length l))
  = if end_ rb + Z.of_nat (length l) <? C then end_ rb
    else 4294967296 + end_ rb - C.
Proof.
  intros Hwf Hf Hmax Hroom.
  destruct (write_chars_room C l rb Hwf Hf Hroom) as (_ & _ & _ & _ & E1 & _).
  pose proof (live_bounds C rb Hwf) as Hlb.
  pose proof Hwf as (_ & He & _). rewrite E1. unfold u32.
  destruct (Z.ltb_spec (end_ rb + Z.of_nat (length l)) C).
  - rewrite (Z.mod_small (end_ rb + _)) by lia. rewrite Z.mod_small; lia.
  - rewrite <- (Z_mod_plus_full (end_ rb + Z.of_nat (length l)) (-1) C).
    rewrite (Z.mod_small (end_ rb + _ + -1 * C)) by lia.
    rewrite <- (Z_mod_plus_full _ 1 4294967296).
    rewrite Z.mod_small; lia.
Qed.

(** The ring after a run of writes that fits and a rewind of its length. *)
Lemma rewind_after_run (C : Z) (rb : s_ring) (l : list ascii) :
  rb_wf C rb -> full rb = false -> C <= 65535 ->
  rb_live C rb + Z.of_nat (length l) <= C - 1 ->
  exists rb',
    ring_buffer_rewind C (Z.of_nat (length l)) (ring_buffer_write_chars C l rb)
      = Some (Z.of_nat (length l), rb') /\
    start rb' = start rb /\ end_ rb' = end_ rb /\ full rb' = full rb /\
    rb_contents C rb' = rb_contents C rb.
Proof.
  intros Hwf Hf Hmax Hroom.
  destruct (rewind_written_span C rb l Hwf Hf Hmax Hroom) as (rb' & Hr & Hc & _).
  destruct (write_chars_room C l rb Hwf Hf Hroom) as (W & S1 & F1 & L1 & E1 & _).
  pose proof (live_bounds C rb Hwf) as Hlb.
  destruct (rewind_lt C (Z.of_nat (length l)) _ W Hmax)
    as (rb'' & Hr' & S2 & F2 & E2 & _); [lia |].
  rewrite Hr in Hr'. inversion Hr'; subst rb''.
  exists rb'. split; [exact Hr |].
  rewrite S2, F2, E2, S1, F1, E1. repeat split; try congruence.
  rewrite Zminus_mod_idemp_l.
  replace (end_ rb + Z.of_nat (length l) - Z.of_nat (length l)) with (end_ rb) by lia.
  destruct Hwf as (_ & He & _). apply Z.mod_small. lia.
Qed.

(** X14.  [snprintf] when [print] returns the number of characters it wrote
    (a template of literal characters, say), these fit, and the run does
    not reach the last slot of the storage: the destination receives the
    first [min (len - 1) n] characters of the output and the NUL after
    them, that number is returned, and the ring gets back its cursors
    and its live contents. *)
Theorem snprintf_copies_prefix
    (C : Z) (fuel : nat) (len : Z) (fmt : list ascii) (args : va_list)
    (rb : s_ring) (l : list ascii) :
  rb_wf C rb -> full rb = false -> C <= 65535 ->
  print C fuel fmt args rb
    = Some (Z.of_nat (length l), ring_buffer_write_chars C l rb) ->
  rb_live C rb + Z.of_nat (length l) <= C - 1 ->
  end_ rb + Z.of_nat (length l) < C ->
  1 <= len <= 2147483648 ->
  let k := Z.min (len - 1) (Z.of_nat (length l)) in
  exists w rb',
    snprintf C fuel true len fmt args false rb = Some (k, Some w, false, rb') /\
    copy_len w = k /\ nul_at w = k /\
    memcpy_bytes (buf (ring_buffer_write_chars C l rb)) w = take (Z.to_nat k) l /\
    start rb' = start rb /\ end_ rb' = end_ rb /\ full rb' = full rb /\
    rb_contents C rb' = rb_contents C rb.
Proof.
  intros Hwf Hf Hmax Hp Hroom Hfit Hlen k.
  pose proof (live_bounds C rb Hwf) as Hlb.
  destruct (rewind_after_run C rb l Hwf Hf Hmax Hroom)
    as (rb' & Hr & S2 & E2 & F2 & C2).
  pose proof (copy_src_value C rb l Hwf Hf Hmax Hroom) as Hsrc.
  destruct (Z.ltb_spec (end_ rb + Z.of_nat (length l)) C); [| lia].
  assert (Hu : u32 (Z.of_nat (length l)) = Z.of_nat (length l))
    by (apply Z.mod_small; lia).
  unfold snprintf. cbn [negb mutex_trylock].
  rewrite Hp, bind_Some. cbv beta iota. rewrite Hu, Hsrc, Hr, bind_Some.
  assert (Hk : (if Z.of_nat (length l) >=? len then u32 (len - 1)
                else Z.of_nat (length l)) = k).
  { unfold k. destruct (Z.geb_spec (Z.of_nat (length l)) len).
    - unfold u32. rewrite Z.mod_small by lia. lia.
    - lia. }
  rewrite Hk.
  assert (Hs : s32 k = k) by (unfold s32, k; rewrite Z.mod_small; lia).
  rewrite Hs. eexists. exists rb'. split; [reflexivity |].
  cbn [copy_len nul_at]. repeat split; try assumption.
  unfold memcpy_bytes. cbn [copy_len copy_src].
  rewrite <- (written_span_bytes C rb l Hwf Hf Hroom ltac:(lia)) at 2.
  rewrite take_take. f_equal. unfold k. lia.
Qed.

Lemma snprintf_copies_prefix_witness :
  exists w rb',
    snprintf 64 8 true 4 (str "hello") [] false (empty_ring 64)
      = Some (3, Some w, false, rb') /\
    memcpy_bytes (buf (ring_buffer_write_chars 64 (str "hello") (empty_ring 64))) w
      = str "hel" /\
    rb_contents 64 rb' = [].
Proof.
  destruct (snprintf_copies_prefix 64 8 4 (str "hello") [] (empty_ring 64)
              (str "hello"))
    as (w & rb' & Hs & _ & _ & Hm & _ & _ & _ & Hc).
  - vm_compute. repeat split; discriminate.
  - reflexivity.
  - lia.
  - vm_compute. reflexivity.
  - vm_compute. discriminate.
  - vm_compute. reflexivity.
  - lia.
  - exists w, rb'. split; [exact Hs |]. split; [exact Hm | exact Hc].
Defined.

(** X15.  [sprintf] under the same conditions: the whole output is copied. *)
Theorem sprintf_copies_output
    (C : Z) (fuel : nat) (fmt : list ascii) (args : va_list)
    (rb : s_ring) (l : list ascii) :
  rb_wf C rb -> full rb = false -> C <= 65535 ->
  print C fuel fmt args rb
    = Some (Z.of_nat (length l), ring_buffer_write_chars C l rb) ->
  rb_live C rb + Z.of_nat (length l) <= C - 1 ->
  end_ rb + Z.of_nat (length l) < C ->
  exists w rb',
    sprintf C fuel true fmt args false rb
      = Some (Z.of_nat (length l), Some w, false, rb') /\
    nul_at w = Z.of_nat (length l) /\
    memcpy_bytes (buf (ring_buffer_write_chars C l rb)) w = l /\
    start rb' = start rb /\ end_ rb' = end_ rb /\ full rb' = full rb /\
    rb_contents C rb' = rb_contents C rb.
Proof.
  intros Hwf Hf Hmax Hp Hroom Hfit.
  pose proof (live_bounds C rb Hwf) as Hlb.
  destruct (rewind_after_run C rb l Hwf Hf Hmax Hroom)
    as (rb' & Hr & S2 & E2 & F2 & C2).
  pose proof (copy_src_value C rb l Hwf Hf Hmax Hroom) as Hsrc.
  destruct (Z.ltb_spec (end_ rb + Z.of_nat (length l)) C); [| lia].
  assert (Hu : u32 (Z.of_nat (length l)) = Z.of_nat (length l))
    by (apply Z.mod_small; lia).
  unfold sprintf. cbn [negb mutex_trylock].
  rewrite Hp, bind_Some. cbv beta iota. rewrite Hu, Hsrc, Hr, bind_Some.
  assert (Hs : s32 (Z.of_nat (length l)) = Z.of_nat (length l))
    by (unfold s32; rewrite Z.mod_small; lia).
  rewrite Hs. eexists. exists rb'. split; [reflexivity |].
  cbn [nul_at]. repeat split; try assumption.
  unfold memcpy_bytes. cbn [copy_len copy_src]. rewrite Nat2Z.id.
  apply written_span_bytes; try assumption. lia.
Qed.

Lemma sprintf_copies_output_witness :
  exists w rb',
    sprintf 64 8 true (str "hello") [] false (empty_ring 64)
      = Some (5, Some w, false, rb') /\
    memcpy_bytes (buf (ring_buffer_write_chars 64 (str "hello") (empty_ring 64))) w
      = str "hello".
Proof.
  destruct (sprintf_copies_output 64 8 (str "hello") [] (empty_ring 64)
              (str "hello"))
    as (w & rb' & Hs & _ & Hm & _).
  - vm_compute. repeat split; discriminate.
  - reflexivity.
  - lia.
  - vm_compute. reflexivity.
  - vm_compute. discriminate.
  - vm_compute. reflexivity.
  - exists w, rb'. split; [exact Hs | exact Hm].
Defined.

(** X16.  A [print] that fails is not reported by the buffer-returning
    variants and its output is not taken back: the -1 becomes the largest
    [size_t], which the guard of [ring_buffer_rewind] refuses.  [snprintf]
    returns [len - 1] as after a truncation; [sprintf] returns -1 after
    asking [memcpy] for 4294967295 bytes. *)
Theorem print_failure_in_buffer_variants
    (C : Z) (fuel : nat) (len : Z) (fmt : list ascii) (args : va_list)
    (rb rb1 : s_ring) :
  print C fuel fmt args rb = Some (-1, rb1) ->
  C <= 4294967295 -> 1 <= len <= 2147483648 ->
  snprintf C fuel true len fmt args false rb
    = Some (len - 1,
            Some {| copy_src := u32 (end_ rb1 - 4294967295);
                    copy_len := len - 1; nul_at := len - 1 |},
            false, rb1) /\
  sprintf C fuel true fmt args false rb
    = Some (-1,
            Some {| copy_src := u32 (end_ rb1 - 4294967295);
                    copy_len := 4294967295; nul_at := 4294967295 |},
            false, rb1).
Proof.
  intros Hp HC Hlen. unfold snprintf, sprintf. cbn [negb mutex_trylock].
  rewrite Hp, !bind_Some. cbv beta iota.
  change (u32 (-1)) with 4294967295.
  rewrite (rewind_ge C 4294967295 rb1) by lia. rewrite !bind_Some.
  destruct (Z.geb_spec 4294967295 len); [| lia].
  assert (Hu : u32 (len - 1) = len - 1) by (apply Z.mod_small; lia).
  assert (Hs : s32 (len - 1) = len - 1)
    by (unfold s32; rewrite Z.mod_small; lia).
  rewrite Hu, Hs. split; reflexivity.
Qed.

Lemma print_failure_in_buffer_variants_witness :
  snprintf 64 8 true 10 (str "ab%z") [] false (empty_ring 64)
  = Some (9, Some {| copy_src := 3; copy_len := 9; nul_at := 9 |}, false,
          ring_buffer_write_chars 64 (str "ab") (empty_ring 64)).
Proof.
  apply (print_failure_in_buffer_variants 64 8 10 (str "ab%z") []
           (empty_ring 64)
           (ring_buffer_write_chars 64 (str "ab") (empty_ring 64))).
  - vm_compute. reflexivity.
  - lia.
  - lia.
Defined.

(** X17.  [aprintf] leaves its output in the ring and [aprintf_flush] sends
    it: after the two calls the log has received what the ring held
    before, followed by the new output, the ring is empty and the lock
    free. *)
Theorem aprintf_then_flush
    (C BUF_SIZE : Z) (fuel : nat) (fmt : list ascii) (args : va_list)
    (rb : s_ring) (res : Z) (l : list ascii) :
  rb_wf C rb -> full rb = false -> start rb = 0 ->
  print C fuel fmt args rb = Some (res, ring_buffer_write_chars C l rb) ->
  rb_live C rb + Z.of_nat (length l) <= C - 1 ->
  let rb1 := ring_buffer_write_chars C l rb in
  aprintf C fuel fmt args false rb = Some (res, false, rb1) /\
  exists log,
    aprintf_flush C BUF_SIZE false rb1 = (0, log, false, empty_ring C) /\
    (length log <= 1)%nat /\
    concat (map snd log) = rb_contents C rb ++ l.
Proof.
  intros Hwf Hf Hs Hp Hroom rb1.
  destruct (write_chars_room C l rb Hwf Hf Hroom) as (W & S1 & F1 & L1 & E1 & C1).
  fold rb1 in W, S1, F1, L1, E1, C1.
  split.
  { unfold aprintf. cbn [negb mutex_trylock]. rewrite Hp, bind_Some.
    reflexivity. }
  unfold aprintf_flush. cbn [negb mutex_trylock].
  pose proof (drain_resets C BUF_SIZE rb1 W) as Hd.
  assert (Hle : start rb1 <= end_ rb1).
  { rewrite S1, Hs. destruct W as (_ & He & _). lia. }
  destruct (drain_bytes C BUF_SIZE rb1 W F1 (or_introl Hle)) as (_ & Hb).
  assert (Hone : (length (print_and_reset_buffer C BUF_SIZE rb1).1 <= 1)%nat).
  { unfold print_and_reset_buffer. cbn [fst].
    destruct (end_ rb1 >? start rb1); [simpl; lia |].
    destruct (Z.ltb_spec (end_ rb1) (start rb1)); [lia | simpl; lia]. }
  destruct (print_and_reset_buffer C BUF_SIZE rb1) as [calls rb2].
  cbn [fst snd] in *. subst rb2.
  eexists. split; [reflexivity |]. split.
  - unfold logged. rewrite length_map. exact Hone.
  - rewrite Hb. exact C1.
Qed.

Lemma aprintf_then_flush_witness :
  exists log,
    aprintf_flush 64 64 false
      (ring_buffer_write_chars 64 (str "00042")
         (ring_buffer_write_chars 64 (str "irq ") (empty_ring 64)))
      = (0, log, false, empty_ring 64) /\
    concat (map snd log) = str "irq 00042".
Proof.
  destruct (aprintf_then_flush 64 64 8 (str "%05d") [Arg32 42]
              (ring_buffer_write_chars 64 (str "irq ") (empty_ring 64))
              4 (str "00042"))
    as (_ & log & Hfl & _ & Hc).
  - vm_compute. repeat split; discriminate.
  - reflexivity.
  - reflexivity.
  - vm_compute. reflexivity.
  - vm_compute. discriminate.
  - exists log. split; [exact Hfl | exact Hc].
Defined.

(** * The cursor [start] *)

Lemma clear_loop16_length (fuel : nat) :
  forall (i hi : Z) (b b' : list ascii),
    clear_loop16 fuel i hi b = Some b' -> length b' = length b.
Proof.
  induction fuel as [| f IH]; intros i hi b b' H; simpl in H.
  - destruct (i <? hi); [discriminate |]. inversion H. reflexivity.
  - destruct (i <? hi).
    + apply IH in H. rewrite H. apply length_insert.
    + inversion H. reflexivity.
Qed.

(** X18.  No function of the file ever advances [start]: from boot on it stays
    at slot 0.  The ring therefore never wraps: the live bytes are those
    of the slots below [end], and a drain never needs its second call. *)
Theorem start_never_moves (C BUF_SIZE : Z) (rb : s_ring) :
  0 < C -> ring_reachable C BUF_SIZE rb ->
  start rb = 0 /\ rb_wf C rb /\ rb_live C rb = end_ rb /\
  (length (print_and_reset_buffer C BUF_SIZE rb).1 <= 1)%nat.
Proof.
  intros HC Hreach.
  assert (Hcore : start rb = 0 /\ rb_wf C rb).
  { induction Hreach as [rb0 Hl | c rb _ [IHs IHw] | rb _ [IHs IHw]
                         | n r rb rb' _ [IHs IHw] Hn Hr].
    - split; [reflexivity |]. unfold rb_wf, init_ring_buffer. simpl.
      rewrite clear_range_length. repeat split; lia.
    - split; [| apply write_char_wf; exact IHw].
      rewrite <- IHs. apply (write_chars_start C [c]).
    - split; [reflexivity |]. apply drain_inv. exact IHw.
    - destruct IHw as (Hs & He & Hl). unfold ring_buffer_rewind in Hr.
      destruct (Z.geb_spec n C) as [Hge | Hlt];
        [inversion Hr; subst; split; [exact IHs | unfold rb_wf; auto] |].
      destruct (Z.geb_spec (end_ rb) n).
      + destruct (clear_loop16 fuel16 (u16 (end_ rb - n)) (end_ rb) (buf rb))
          as [b |] eqn:Hb; [| discriminate].
        rewrite bind_Some in Hr. inversion Hr; subst. simpl.
        apply clear_loop16_length in Hb.
        split; [exact IHs |]. unfold rb_wf. simpl. rewrite Hb.
        repeat split; lia.
      + destruct (clear_loop16 fuel16 0 (end_ rb) (buf rb))
          as [b1 |] eqn:Hb1; [| discriminate].
        rewrite bind_Some in Hr.
        destruct (clear_loop16 fuel16 (u16 (C - n + end_ rb)) C b1)
          as [b2 |] eqn:Hb2; [| discriminate].
        rewrite bind_Some in Hr. inversion Hr; subst. simpl.
        apply clear_loop16_length in Hb1, Hb2.
        split; [exact IHs |]. unfold rb_wf. simpl. rewrite Hb2, Hb1.
        repeat split; lia. }
  destruct Hcore as [Hs Hwf]. split; [exact Hs |]. split; [exact Hwf |].
  pose proof Hwf as (_ & He & _). split.
  - unfold rb_live. rewrite Hs, Z.sub_0_r. apply Z.mod_small. lia.
  - unfold print_and_reset_buffer. cbn [fst]. rewrite Hs.
    destruct (end_ rb >? 0); [simpl; lia |].
    destruct (Z.ltb_spec (end_ rb) 0); [lia | simpl; lia].
Qed.

Lemma start_never_moves_witness :
  start (ring_buffer_write_char 8 "a"
           (print_and_reset_buffer 8 8
              (ring_buffer_write_char 8 "z" (init_ring_buffer 8 (empty_ring 8)))).2)
  = 0.
Proof.
  apply (start_never_moves 8 8).
  - lia.
  - apply reach_write, reach_drain, reach_write, reach_boot. reflexivity.
Defined.

(** * Numbers *)

Lemma digits_be_length (base : Z) (n : nat) :
  forall v : Z, (length (digits_be n base v) <= n)%nat.
Proof.
  induction n as [| n IH]; intros v; simpl; [lia |].
  destruct (v <? base); simpl; [lia |].
  rewrite length_app. simpl. specialize (IH (v / base)). lia.
Qed.

(** X19.  [ring_buffer_write_number] with a base from 2 to 16 and a 64-bit
    value stays inside its 64 cells and writes the digits of the value,
    most significant first, in lowercase; [get_number_len] returns their
    number, between 1 and 64. *)
Theorem write_number_digits (C : Z) (v base : Z) (rb : s_ring) :
  2 <= base <= 16 -> 0 <= v < 2 ^ 64 ->
  ring_buffer_write_number C v base rb
    = Some (ring_buffer_write_chars C (map digit_char (digits base v)) rb) /\
  get_number_len v base = Some (Z.of_nat (length (digits base v))) /\
  is_repr base v (digits base v) /\
  (1 <= length (digits base v) <= 64)%nat.
Proof.
  intros Hb Hv.
  destruct (number_len_digits base v) as (Hr & Hcells & Hlen); [lia | lia |].
  split.
  { unfold ring_buffer_write_number. rewrite Hcells, bind_Some.
    rewrite write_digits_chars; [reflexivity |].
    destruct Hr as (Hall & _). eapply Forall_impl; [exact Hall |].
    simpl. intros d Hd. lia. }
  split; [exact Hlen |]. split; [exact Hr |]. split.
  - destruct Hr as (_ & _ & [-> | (d & ds' & -> & _)]); simpl; lia.
  - apply digits_be_length.
Qed.

Lemma write_number_digits_witness :
  ring_buffer_write_number 64 48879 16 (empty_ring 64)
  = Some (ring_buffer_write_chars 64 (str "beef") (empty_ring 64)).
Proof.
  apply (write_number_digits 64 48879 16 (empty_ring 64)); lia.
Defined.

(** * The width field *)

Lemma width_fold_mod (ds : list ascii) :
  forall a : Z,
    fold_left (fun sz c => u8 (sz * 10 + (code c - code "0"))) ds (u8 a)
    = u8 (fold_left (fun acc c => acc * 10 + (code c - code "0")) ds a).
Proof.
  induction ds as [| d ds IH]; intros a; [reflexivity |].
  simpl. rewrite <- IH. f_equal. unfold u8.
  rewrite Zplus_mod, Zmult_mod, Z.mod_mod by lia.
  rewrite <- Zmult_mod, <- Zplus_mod. reflexivity.
Qed.

(** X20.  The width after the zero flag is kept in 8 bits: the loop of
    [case '0'] leaves in [size] the decimal number the digits spell, modulo
    256, and has consumed exactly the digits.  A width that is a multiple
    of 256 therefore counts as no width. *)
Theorem parsed_width_mod_256
    (ds : list ascii) (c : ascii) (pre rest : list ascii) (base : Z)
    (fs : fs_properties_t) (fuel : nat) :
  Forall (fun d => is_digit d = true) ds -> is_digit c = false ->
  base + (consumed fs + 1) = Z.of_nat (length pre) ->
  0 <= consumed fs -> consumed fs + Z.of_nat (length ds) <= 254 ->
  (length ds <= fuel)%nat -> size fs = 0 ->
  exists fs',
    parse_size fuel (pre ++ ds ++ c :: rest) base fs = Some fs' /\
    size fs' = decimal_value ds mod 256 /\
    consumed fs' = consumed fs + Z.of_nat (length ds) /\
    width_of ds = decimal_value ds mod 256.
Proof.
  intros Hds Hc Hpos H0 Hmax Hfuel Hsz.
  assert (Hw : width_of ds = decimal_value ds mod 256).
  { unfold width_of, decimal_value. change 0 with (u8 0) at 1.
    apply width_fold_mod. }
  eexists. split;
    [apply parse_size_digits; assumption |].
  simpl. rewrite Hsz. fold (width_of ds). auto.
Qed.

Lemma parsed_width_mod_256_witness :
  width_of (str "300") = 44.
Proof.
  destruct (parsed_width_mod_256 (str "300") "d"%char (str "%0") [] 0
              (mk_fs true false 0 FS_NUM_DECIMAL true 1) 8)
    as (fs' & _ & _ & _ & Hw).
  - repeat constructor.
  - reflexivity.
  - reflexivity.
  - simpl. lia.
  - simpl. lia.
  - simpl. lia.
  - reflexivity.
  - rewrite Hw. reflexivity.
Defined.

(** * The queue *)

Section QueueFacts.

Import Queue.

Lemma chain_frame (h h' : gmap Z node) (l : list (Z * Z)) :
  forall p pr : Z,
    chain h p pr l ->
    (forall a, In a (map fst l) -> h' !! a = h !! a) ->
    chain h' p pr l.
Proof.
  induction l as [| [a d] l IH]; intros p pr Hc Hsame; [exact Hc |].
  destruct Hc as (-> & Ha & nd & Hnd & Hd & Hp & Hrest).
  split; [reflexivity |]. split; [exact Ha |]. exists nd.
  split; [rewrite Hsame; [exact Hnd | left; reflexivity] |].
  split; [exact Hd |]. split; [exact Hp |].
  apply IH; [exact Hrest |]. intros b Hb. apply Hsame. right. exact Hb.
Qed.

Lemma chain_allocated (h : gmap Z node) (l : list (Z * Z)) :
  forall (p pr a : Z),
    chain h p pr l -> In a (map fst l) -> a <> 0 /\ is_Some (h !! a).
Proof.
  induction l as [| [b d] l IH]; intros p pr a Hc Hin; [destruct Hin |].
  destruct Hc as (-> & Hb & nd & Hnd & _ & _ & Hrest).
  destruct Hin as [<- | Hin]; [split; [exact Hb | eauto] |].
  eapply IH; eassumption.
Qed.

Lemma chain_head (h : gmap Z node) (p pr : Z) (l : list (Z * Z)) :
  chain h p pr l -> p = hd 0 (map fst l).
Proof. destruct l as [| [a d] l]; simpl; [auto | intros (-> & _); reflexivity]. Qed.

Lemma last_nonzero (h : gmap Z node) (p pr : Z) (l : list (Z * Z)) :
  chain h p pr l -> l <> [] -> List.last (map fst l) 0 <> 0.
Proof.
  intros Hc Hne.
  destruct (exists_last Hne) as (l0 & [a d] & ->).
  rewrite map_app. simpl. rewrite last_last.
  eapply chain_allocated; [exact Hc |].
  rewrite map_app. apply in_or_app. right. left. reflexivity.
Qed.

Lemma last_default {A : Type} (l : list A) (d1 d2 : A) :
  l <> [] -> List.last l d1 = List.last l d2.
Proof.
  induction l as [| x l IH]; intros Hne; [contradiction |].
  destruct l as [| y l]; [reflexivity |].
  change (List.last (y :: l) d1 = List.last (y :: l) d2).
  apply IH. discriminate.
Qed.

(** The last node of a chain. *)
Lemma chain_last (h : gmap Z node) (a d : Z) (l : list (Z * Z)) :
  forall p pr : Z,
    chain h p pr (l ++ [(a, d)]) ->
    exists nd, h !! a = Some nd /\ data nd = d /\ next nd = 0 /\
               prev nd = List.last (map fst l) pr.
Proof.
  induction l as [| [b e] l IH]; intros p pr Hc.
  - destruct Hc as (-> & _ & nd & Hnd & Hd & Hp & Hn). simpl in Hn.
    exists nd. auto.
  - destruct Hc as (-> & _ & nb & _ & _ & _ & Hrest).
    destruct (IH _ _ Hrest) as (nd & Hnd & Hd & Hn & Hp).
    exists nd. repeat split; try assumption.
    rewrite Hp. destruct l as [| x l]; [reflexivity |].
    change (List.last (map fst ((b, e) :: x :: l)) pr)
      with (List.last (map fst (x :: l)) pr).
    apply last_default. discriminate.
Qed.

(** Unlinking the last node: its predecessor gets a null [next] and the
    block is given back. *)
Lemma chain_drop_last (h : gmap Z node) (a d : Z) (l : list (Z * Z)) :
  forall (p pr : Z) (pb : node),
    l <> [] ->
    chain h p pr (l ++ [(a, d)]) ->
    NoDup (map fst (l ++ [(a, d)])) ->
    h !! List.last (map fst l) 0 = Some pb ->
    chain (delete a (<[List.last (map fst l) 0 := set_next 0 pb]> h)) p pr l.
Proof.
  induction l as [| [b e] l IH]; intros p pr pb Hne Hc Hnd Hpb;
    [contradiction |].
  destruct Hc as (-> & Hb & nb & Hnb & He & Hp & Hrest).
  simpl in Hnd. apply NoDup_cons in Hnd. destruct Hnd as [Hnotin Hnd].
  rewrite map_app in Hnotin. simpl in Hnotin.
  assert (Hba : b <> a).
  { intros ->. apply Hnotin. apply list_elem_of_In, in_or_app.
    right. left. reflexivity. }
  destruct l as [| [c f] l'].
  - simpl in *. rewrite Hnb in Hpb. inversion Hpb; subst pb.
    split; [reflexivity |]. split; [exact Hb |].
    exists (set_next 0 nb).
    rewrite lookup_delete_ne by congruence. rewrite lookup_insert_eq.
    split; [reflexivity |]. split; [exact He |]. split; [exact Hp |].
    reflexivity.
  - assert (Hlast : List.last (map fst ((b, e) :: (c, f) :: l')) 0
                    = List.last (map fst ((c, f) :: l')) 0) by reflexivity.
    rewrite Hlast in Hpb |- *.
    assert (Hbl : b <> List.last (map fst ((c, f) :: l')) 0).
    { intros Heq. apply Hnotin. apply list_elem_of_In, in_or_app. left.
      rewrite Heq. destruct (@exists_last _ ((c, f) :: l') ltac:(discriminate))
        as (l0 & [x y] & Hl0).
      rewrite Hl0, map_app. simpl. rewrite last_last.
      apply in_or_app. right. left. reflexivity. }
    split; [reflexivity |]. split; [exact Hb |]. exists nb.
    rewrite lookup_delete_ne by congruence.
    rewrite lookup_insert_ne by congruence.
    split; [exact Hnb |]. split; [exact He |]. split; [exact Hp |].
    apply IH; [discriminate | exact Hrest | exact Hnd | exact Hpb].
Qed.

End QueueFacts.

(** X21.  [queue_enqueue] on a queue that is not full, with the lock free and a
    fresh block from the allocator: the new node becomes the head of the
    list, in front of the nodes the queue held, the size grows by one,
    and the lock is free again. *)
Theorem queue_enqueue_links_at_head
    (h : gmap Z Queue.node) (q : Queue.queue_t) (l : list (Z * Z))
    (d n : Z) (junk : Queue.node) :
  Queue.queue_repr h q l -> Queue.lock q = false -> d <> 0 ->
  Queue.size q < Queue.max q -> n <> 0 -> h !! n = None ->
  exists q' h',
    Queue.queue_enqueue (Some q) d (Some (n, junk)) h
      = Some (Queue.MBED_ERROR_NONE, Some q', h') /\
    Queue.queue_repr h' q' ((n, d) :: l) /\
    Queue.lock q' = false /\ Queue.max q' = Queue.max q.
Proof.
  intros (Hc & Ht & Hsz & Hnd & Hmax) Hlock Hd Hroom Hn Hfresh.
  unfold Queue.queue_enqueue.
  destruct (Z.eqb_spec d 0); [contradiction |].
  destruct (Z.eqb_spec (Queue.size q) (Queue.max q)); [lia |].
  rewrite Hlock. cbn [mutex_trylock negb].
  assert (Hu : u32 (Queue.size q + 1) = Z.of_nat (length ((n, d) :: l))).
  { unfold u32. rewrite Z.mod_small by lia. simpl length. lia. }
  assert (Hnotin : ~ In n (map fst l)).
  { intros Hin. destruct (chain_allocated h l _ _ n Hc Hin) as [_ [x Hx]].
    congruence. }
  destruct l as [| [a d0] l'].
  - simpl in Hc, Ht. rewrite Hc, Ht. cbn [Z.eqb negb]. rewrite bind_Some.
    eexists. eexists. split; [reflexivity |].
    split; [| split; reflexivity].
    split; [| split; [reflexivity | split; [exact Hu | split]]].
    + simpl. split; [reflexivity |]. split; [exact Hn |].
      eexists. rewrite lookup_insert_eq. repeat split.
    + simpl. repeat constructor. intros H. inversion H.
    + cbn [Queue.size Queue.max]. rewrite Hu. simpl length in *. lia.
  - destruct Hc as (Hhead & Ha & nd & Hnda & Hd0 & Hp & Hrest).
    assert (Han : a <> n) by congruence.
    rewrite Hhead. destruct (Z.eqb_spec a 0); [contradiction |].
    cbn [negb].
    rewrite lookup_insert_ne by congruence.
    rewrite lookup_insert_ne by congruence.
    rewrite Hnda, !bind_Some.
    assert (Htail : Queue.tail q <> 0).
    { rewrite Ht. eapply (last_nonzero h); [| discriminate].
      simpl. split; [reflexivity |]. split; [exact Ha |]. exists nd.
      split; [exact Hnda |]. split; [exact Hd0 |]. split; [exact Hp |].
      exact Hrest. }
    destruct (Z.eqb_spec (Queue.tail q) 0); [contradiction |].
    eexists. eexists. split; [reflexivity |].
    split; [| split; reflexivity].
    split; [| split; [| split; [exact Hu | split]]].
    + simpl. split; [reflexivity |]. split; [exact Hn |].
      eexists. rewrite lookup_insert_ne by congruence.
      rewrite lookup_insert_eq.
      split; [reflexivity |]. split; [reflexivity |]. split; [reflexivity |].
      cbn [Queue.next]. split; [reflexivity |]. split; [exact Ha |].
      exists (Queue.set_prev n nd). rewrite lookup_insert_eq.
      split; [reflexivity |]. split; [exact Hd0 |]. split; [reflexivity |].
      cbn [Queue.set_prev Queue.next].
      apply (chain_frame h); [exact Hrest |].
      intros b Hb.
      simpl in Hnd. apply NoDup_cons in Hnd. destruct Hnd as [Hna _].
      assert (b <> a) by (intros ->; apply Hna, list_elem_of_In; exact Hb).
      assert (b <> n) by (intros ->; apply Hnotin; right; exact Hb).
      rewrite !lookup_insert_ne by congruence. reflexivity.
    + cbn [Queue.tail]. rewrite Ht. reflexivity.
    + simpl. apply NoDup_cons. split; [| exact Hnd].
      intros H. apply Hnotin. apply list_elem_of_In. exact H.
    + cbn [Queue.size Queue.max]. rewrite Hu. simpl length in *. lia.
Qed.

Lemma queue_enqueue_links_at_head_witness :
  exists q' h',
    Queue.queue_enqueue
      (Some (Queue.mk_queue 0 0 4 0 false)) 77 (Some (16, Queue.mk_node 9 9 9)) ∅
      = Some (Queue.MBED_ERROR_NONE, Some q', h') /\
    Queue.queue_repr h' q' [(16, 77)].
Proof.
  destruct (queue_enqueue_links_at_head ∅ (Queue.mk_queue 0 0 4 0 false) []
              77 16 (Queue.mk_node 9 9 9))
    as (q' & h' & He & Hr & _).
  - repeat split; simpl; try lia. constructor.
  - reflexivity.
  - lia.
  - simpl. lia.
  - lia.
  - reflexivity.
  - exists q', h'. split; [exact He | exact Hr].
Defined.

Lemma repr_last (h : gmap Z Queue.node) (q : Queue.queue_t)
    (l : list (Z * Z)) (a d : Z) :
  Queue.queue_repr h q (l ++ [(a, d)]) ->
  Queue.tail q = a /\ Queue.size q <> 0 /\
  exists nd, h !! a = Some nd /\ Queue.data nd = d /\
             Queue.prev nd = List.last (map fst l) 0.
Proof.
  intros (Hc & Ht & Hsz & _ & _).
  rewrite map_app in Ht. simpl in Ht. rewrite last_last in Ht.
  split; [exact Ht |]. split; [rewrite Hsz, length_app; simpl; lia |].
  destruct (chain_last h a d l _ _ Hc) as (nd & Hnd & Hd & _ & Hp).
  exists nd. auto.
Qed.

(** X22.  [queue_dequeue] with the lock free takes the node at the tail, the
    one that was enqueued first: its datum is returned, the nodes in
    front of it stay in the queue in their order, its block is given
    back to the allocator, and the size shrinks by one.  Together with
    the enqueue at the head this is the first-in first-out order. *)
Theorem queue_dequeue_takes_oldest
    (h : gmap Z Queue.node) (q : Queue.queue_t) (l : list (Z * Z)) (a d : Z) :
  Queue.queue_repr h q (l ++ [(a, d)]) -> Queue.lock q = false ->
  exists q' h',
    Queue.queue_dequeue (Some q) true h
      = Some (Queue.MBED_ERROR_NONE, Some d, Some q', h') /\
    Queue.queue_repr h' q' l /\ h' !! a = None /\
    Queue.lock q' = false /\ Queue.max q' = Queue.max q.
Proof.
  intros Hrepr Hlock.
  destruct (repr_last h q l a d Hrepr) as (Ht & Hnz & nd & Hnd & Hd & Hp).
  destruct Hrepr as (Hc & _ & Hsz & Hdup & Hmax).
  unfold Queue.queue_dequeue. rewrite Hlock. cbn [mutex_trylock negb].
  destruct (Z.eqb_spec (Queue.size q) 0); [contradiction |].
  rewrite Ht, Hnd, bind_Some.
  assert (Hu : u32 (Queue.size q - 1) = Z.of_nat (length l)).
  { unfold u32. rewrite length_app in Hsz. simpl in Hsz.
    rewrite Z.mod_small by lia. lia. }
  destruct l as [| [b e] l'].
  - simpl in Hp. rewrite Hp. cbn [Z.eqb negb]. rewrite bind_Some, Hnd, bind_Some.
    simpl in Hc. destruct Hc as (Hh & _). rewrite Hh, Z.eqb_refl, Hp.
    eexists. eexists. split; [rewrite Hd; reflexivity |].
    split; [| split; [apply lookup_delete_eq | split; reflexivity]].
    split; [reflexivity |]. split; [reflexivity |].
    split; [exact Hu |]. split; [constructor |].
    cbn [Queue.size Queue.max]. rewrite Hu. simpl. lia.
  - assert (Hbne : List.last (map fst ((b, e) :: l')) 0 <> 0).
    { assert (Hin : In (List.last (map fst ((b, e) :: l')) 0)
                       (map fst (((b, e) :: l') ++ [(a, d)]))).
      { rewrite map_app. apply in_or_app. left.
        destruct (@exists_last _ ((b, e) :: l') ltac:(discriminate))
          as (l0 & [x y] & ->).
        rewrite map_app. simpl. rewrite last_last.
        apply in_or_app. right. left. reflexivity. }
      apply (chain_allocated h _ _ _ _ Hc Hin). }
    assert (Hpb : is_Some (h !! List.last (map fst ((b, e) :: l')) 0)).
    { assert (Hin : In (List.last (map fst ((b, e) :: l')) 0)
                       (map fst (((b, e) :: l') ++ [(a, d)]))).
      { rewrite map_app. apply in_or_app. left.
        destruct (@exists_last _ ((b, e) :: l') ltac:(discriminate))
          as (l0 & [x y] & ->).
        rewrite map_app. simpl. rewrite last_last.
        apply in_or_app. right. left. reflexivity. }
      apply (chain_allocated h _ _ _ _ Hc Hin). }
    destruct Hpb as [pb Hpb].
    assert (Hla : List.last (map fst ((b, e) :: l')) 0 <> a).
    { intros Heq. pose proof Hdup as Hdup2. rewrite map_app in Hdup2.
      apply NoDup_app in Hdup2. destruct Hdup2 as (_ & Hdisj & _).
      apply (Hdisj a); [| apply list_elem_of_In; left; reflexivity].
      rewrite <- Heq. apply list_elem_of_In.
      destruct (@exists_last _ ((b, e) :: l') ltac:(discriminate))
        as (l0 & [x y] & ->).
      rewrite map_app. simpl. rewrite last_last.
      apply in_or_app. right. left. reflexivity. }
    rewrite Hp.
    destruct (Z.eqb_spec (List.last (map fst ((b, e) :: l')) 0) 0);
      [contradiction |].
    cbn [negb]. rewrite Hpb, !bind_Some.
    rewrite lookup_insert_ne by exact Hla. rewrite Hnd, bind_Some.
    pose proof (chain_head _ _ _ _ Hc) as Hh. simpl in Hh.
    assert (Hab : a <> b).
    { intros ->. pose proof Hdup as Hdup2. simpl in Hdup2.
      apply NoDup_cons in Hdup2.
      destruct Hdup2 as [Hn _]. apply Hn. apply list_elem_of_In.
      rewrite map_app. apply in_or_app. right. left. reflexivity. }
    rewrite Hh. destruct (Z.eqb_spec a b); [contradiction |].
    rewrite Hp.
    eexists. eexists. split; [rewrite Hd; reflexivity |].
    split; [| split; [apply lookup_delete_eq | split; reflexivity]].
    split.
    { cbn [Queue.head]. rewrite Hh in Hc.
      apply chain_drop_last with (d := d);
        [discriminate | exact Hc | exact Hdup | exact Hpb]. }
    split; [reflexivity |]. split; [exact Hu |]. split.
    + rewrite map_app in Hdup. apply NoDup_app in Hdup. apply Hdup.
    + cbn [Queue.size Queue.max]. rewrite Hu.
      rewrite length_app in Hsz. simpl length in *. lia.
Qed.

Lemma queue_dequeue_takes_oldest_witness :
  exists q' h',
    Queue.queue_dequeue (Some (Queue.mk_queue 16 16 4 1 false)) true
      (<[16 := Queue.mk_node 0 0 77]> ∅)
      = Some (Queue.MBED_ERROR_NONE, Some 77, Some q', h') /\
    Queue.queue_repr h' q' [].
Proof.
  destruct (queue_dequeue_takes_oldest (<[16 := Queue.mk_node 0 0 77]> ∅)
              (Queue.mk_queue 16 16 4 1 false) [] 16 77)
    as (q' & h' & He & Hr & _).
  - split; [| repeat split; simpl; try lia; repeat constructor;
              intros H; inversion H].
    simpl. split; [reflexivity |]. split; [lia |].
    exists (Queue.mk_node 0 0 77). rewrite lookup_insert_eq.
    repeat split.
  - reflexivity.
  - exists q', h'. split; [exact He | exact Hr].
Defined.

(** X23.  [queue_next_element] with the lock free returns the datum the next
    [queue_dequeue] would return, and leaves the queue as it is. *)
Theorem queue_next_element_peeks
    (h : gmap Z Queue.node) (q : Queue.queue_t) (l : list (Z * Z)) (a d : Z) :
  Queue.queue_repr h q (l ++ [(a, d)]) -> Queue.lock q = false ->
  Queue.queue_next_element (Some q) true h
  = Some (Queue.MBED_ERROR_NONE, Some d, Some q).
Proof.
  intros Hrepr Hlock.
  destruct (repr_last h q l a d Hrepr) as (Ht & Hnz & nd & Hnd & Hd & _).
  unfold Queue.queue_next_element. rewrite Hlock. cbn [mutex_trylock negb].
  destruct (Z.eqb_spec (Queue.size q) 0); [contradiction |].
  rewrite Ht, Hnd, bind_Some, Hd. unfold mutex_unlock.
  destruct q; simpl in *. subst. reflexivity.
Qed.

Lemma queue_next_element_peeks_witness :
  Queue.queue_next_element (Some (Queue.mk_queue 16 16 4 1 false)) true
    (<[16 := Queue.mk_node 0 0 77]> ∅)
  = Some (Queue.MBED_ERROR_NONE, Some 77,
          Some (Queue.mk_queue 16 16 4 1 false)).
Proof.
  apply (queue_next_element_peeks (<[16 := Queue.mk_node 0 0 77]> ∅)
           (Queue.mk_queue 16 16 4 1 false) [] 16 77).
  - split; [| repeat split; simpl; try lia; repeat constructor;
              intros H; inversion H].
    simpl. split; [reflexivity |]. split; [lia |].
    exists (Queue.mk_node 0 0 77). rewrite lookup_insert_eq.
    repeat split.
  - reflexivity.
Defined.

(** X24.  The capacity: [queue_available_space] reports [max] minus the number
    of nodes held, [queue_is_empty] tells whether there is none, and on a
    queue that holds [max] nodes [queue_enqueue] returns
    [MBED_ERROR_NOMEM] before asking for memory, changing nothing. *)
Theorem queue_capacity
    (h : gmap Z Queue.node) (q : Queue.queue_t) (l : list (Z * Z))
    (d : Z) (alloc : option (Z * Queue.node)) :
  Queue.queue_repr h q l -> Queue.lock q = false -> d <> 0 ->
  Queue.queue_available_space (Some q) true
    = (Queue.MBED_ERROR_NONE, Some (Queue.max q - Z.of_nat (length l)), Some q) /\
  Queue.queue_is_empty q = match l with [] => true | _ => false end /\
  (Z.of_nat (length l) = Queue.max q ->
   Queue.queue_enqueue (Some q) d alloc h
   = Some (Queue.MBED_ERROR_NOMEM, Some q, h)).
Proof.
  intros (_ & _ & Hsz & _ & Hmax) Hlock Hd. split; [| split].
  - unfold Queue.queue_available_space. rewrite Hlock.
    cbn [mutex_trylock negb]. unfold mutex_unlock, u32.
    rewrite Z.mod_small by lia. rewrite Hsz.
    destruct q; simpl in *. subst. reflexivity.
  - unfold Queue.queue_is_empty. rewrite Hsz.
    destruct l; [reflexivity |]. simpl length.
    destruct (Z.eqb_spec (Z.of_nat (S (length l))) 0); [lia | reflexivity].
  - intros Hfull. unfold Queue.queue_enqueue.
    destruct (Z.eqb_spec d 0); [contradiction |].
    destruct (Z.eqb_spec (Queue.size q) (Queue.max q)); [reflexivity | lia].
Qed.

Lemma queue_capacity_witness :
  Queue.queue_available_space (Some (Queue.mk_queue 16 16 4 1 false)) true
  = (Queue.MBED_ERROR_NONE, Some 3, Some (Queue.mk_queue 16 16 4 1 false)).
Proof.
  apply (queue_capacity (<[16 := Queue.mk_node 0 0 77]> ∅)
           (Queue.mk_queue 16 16 4 1 false) [(16, 77)] 5 None).
  - split; [| repeat split; simpl; try lia; repeat constructor;
              intros H; inversion H].
    simpl. split; [reflexivity |]. split; [lia |].
    exists (Queue.mk_node 0 0 77). rewrite lookup_insert_eq.
    repeat split.
  - reflexivity.
  - lia.
Defined.

(** X25.  On an empty queue with the lock free, [queue_dequeue] and
    [queue_next_element] return [MBED_ERROR_NOSTORAGE]; the first leaves
    the out-parameter alone, the second stores [NULL] in it; the queue
    and the heap stay as they are. *)
Theorem queue_empty_refusals
    (h : gmap Z Queue.node) (q : Queue.queue_t) :
  Queue.queue_repr h q [] -> Queue.lock q = false ->
  Queue.queue_dequeue (Some q) true h
    = Some (Queue.MBED_ERROR_NOSTORAGE, None, Some q, h) /\
  Queue.queue_next_element (Some q) true h
    = Some (Queue.MBED_ERROR_NOSTORAGE, Some 0, Some q).
Proof.
  intros (_ & _ & Hsz & _) Hlock. simpl in Hsz.
  unfold Queue.queue_dequeue, Queue.queue_next_element.
  rewrite Hlock, Hsz. cbn [mutex_trylock negb Z.eqb]. unfold mutex_unlock.
  destruct q; simpl in *. subst. split; reflexivity.
Qed.

Lemma queue_empty_refusals_witness :
  Queue.queue_dequeue (Some (Queue.mk_queue 0 0 4 0 false)) true ∅
  = Some (Queue.MBED_ERROR_NOSTORAGE, None,
          Some (Queue.mk_queue 0 0 4 0 false), ∅).
Proof.
  apply (queue_empty_refusals ∅ (Queue.mk_queue 0 0 4 0 false)).
  - repeat split; simpl; try lia. constructor.
  - reflexivity.
Defined.

(** X26.  With the lock held every function that takes it returns
    [MBED_ERROR_BUSY] and leaves the queue alone.  [queue_enqueue] asks
    for the block of the new node before it tries the lock and does not
    give it back on this path: the block stays allocated, outside the
    list. *)
Theorem queue_busy
    (h : gmap Z Queue.node) (q : Queue.queue_t) (l : list (Z * Z))
    (d n : Z) (junk : Queue.node) :
  Queue.queue_repr h q l -> Queue.lock q = true -> d <> 0 ->
  Queue.size q < Queue.max q -> h !! n = None ->
  Queue.queue_enqueue (Some q) d (Some (n, junk)) h
    = Some (Queue.MBED_ERROR_BUSY, Some q, <[n := junk]> h) /\
  Queue.queue_repr (<[n := junk]> h) q l /\
  (<[n := junk]> h) !! n = Some junk /\ ~ In n (map fst l) /\
  Queue.queue_dequeue (Some q) true h
    = Some (Queue.MBED_ERROR_BUSY, None, Some q, h) /\
  Queue.queue_next_element (Some q) true h
    = Some (Queue.MBED_ERROR_BUSY, None, Some q) /\
  Queue.queue_available_space (Some q) true
    = (Queue.MBED_ERROR_BUSY, None, Some q).
Proof.
  intros Hrepr Hlock Hd Hroom Hfresh.
  assert (Hnotin : ~ In n (map fst l)).
  { intros Hin. destruct Hrepr as (Hc & _).
    destruct (chain_allocated h l _ _ n Hc Hin) as [_ [x Hx]]. congruence. }
  split.
  { unfold Queue.queue_enqueue.
    destruct (Z.eqb_spec d 0); [contradiction |].
    destruct (Z.eqb_spec (Queue.size q) (Queue.max q)); [lia |].
    rewrite Hlock. cbn [mutex_trylock negb].
    destruct q; simpl in *. subst. reflexivity. }
  split.
  { destruct Hrepr as (Hc & Hrest). split; [| exact Hrest].
    apply (chain_frame h); [exact Hc |].
    intros a Ha. apply lookup_insert_ne. intros ->. contradiction. }
  split; [apply lookup_insert_eq |]. split; [exact Hnotin |].
  unfold Queue.queue_dequeue, Queue.queue_next_element,
    Queue.queue_available_space.
  rewrite Hlock. cbn [mutex_trylock negb].
  destruct q; simpl in *. subst. repeat split; reflexivity.
Qed.

Lemma queue_busy_witness :
  Queue.queue_enqueue (Some (Queue.mk_queue 0 0 4 0 true)) 77
    (Some (16, Queue.mk_node 9 9 9)) ∅
  = Some (Queue.MBED_ERROR_BUSY, Some (Queue.mk_queue 0 0 4 0 true),
          <[16 := Queue.mk_node 9 9 9]> ∅).
Proof.
  apply (queue_busy ∅ (Queue.mk_queue 0 0 4 0 true) [] 77 16
           (Queue.mk_node 9 9 9)).
  - repeat split; simpl; try lia. constructor.
  - reflexivity.
  - lia.
  - simpl. lia.
  - reflexivity.
Defined.

(** X27.  [queue_create] accepts exactly the capacities from 1 to
    [MAX_QUEUE_DEPTH]; with memory available it then gives an empty
    queue of that capacity with its lock free. *)
Theorem queue_create_empty (MAX_QUEUE_DEPTH capacity : Z) :
  0 <= capacity < 4294967296 ->
  (1 <= capacity <= MAX_QUEUE_DEPTH ->
   exists q,
     Queue.queue_create MAX_QUEUE_DEPTH capacity true true
       = (Queue.MBED_ERROR_NONE, Some q) /\
     Queue.queue_repr ∅ q [] /\ Queue.max q = capacity /\
     Queue.lock q = false /\
     Queue.queue_create MAX_QUEUE_DEPTH capacity true false
       = (Queue.MBED_ERROR_NOMEM, None)) /\
  (~ 1 <= capacity <= MAX_QUEUE_DEPTH ->
   forall alloc,
     Queue.queue_create MAX_QUEUE_DEPTH capacity true alloc
     = (Queue.MBED_ERROR_INVPARAM, None)).
Proof.
  intros Hcap. unfold Queue.queue_create. cbn [negb]. split.
  - intros Hok.
    destruct (Z.gtb_spec capacity MAX_QUEUE_DEPTH); [lia |].
    destruct (Z.eqb_spec capacity 0); [lia |].
    eexists. split; [reflexivity |].
    split; [| repeat split].
    repeat split; simpl; try lia. constructor.
  - intros Hbad alloc.
    destruct (Z.gtb_spec capacity MAX_QUEUE_DEPTH); [reflexivity |].
    destruct (Z.eqb_spec capacity 0); [reflexivity | lia].
Qed.

Lemma queue_create_empty_witness :
  exists q,
    Queue.queue_create 16 4 true true = (Queue.MBED_ERROR_NONE, Some q) /\
    Queue.queue_repr ∅ q [].
Proof.
  destruct (queue_create_empty 16 4 ltac:(lia)) as [Hok _].
  destruct (Hok ltac:(lia)) as (q & Hc & Hr & _).
  exists q. split; [exact Hc | exact Hr].
Defined.

(** * Directives and the contents of the ring *)

(** ** The width as written and as held *)




(** ** Numeric conversions *)




(** ** The pointer conversion *)




(** ** Unrecognized conversion characters, anywhere in a template *)






